(** * code-server: update checks (src/node/app/update.ts) and plugin
      loading (src/node/plugin.ts)

    A shallow embedding of the update provider and of the plugin loader,
    and the properties of their specification that hold (or fail) on it.

    Asynchronous methods are embedded as terms of a small free monad
    [Prog]: every [await] on an I/O operation is a node whose continuation
    receives the outcome of that operation.  Two semantics are given to
    these terms: [run] answers every await at once from a scripted
    environment; the event-loop machine of [Module Loop] suspends a check
    at each await, so that calls of [getUpdate] interleave with it. *)

From Stdlib Require Import ZArith List String Ascii Bool Lia PeanoNat.
From Stdlib Require Import DecimalString.
Import ListNotations.

Set Implicit Arguments.
Set Warnings "-register-all".

Local Open Scope string_scope.
Local Open Scope Z_scope.

(** ** JavaScript values *)

(** An [Error] object: its optional [code] property and its [message]. *)
Record JsError : Type := mkError {
  code : option string;
  message : string
}.

(** [new Error(msg)] *)
Definition newError (msg : string) : JsError := mkError None msg.

(** [new TypeError(msg)]; like [Error], it carries no [code]. *)
Definition newTypeError (msg : string) : JsError := mkError None msg.

(** The values [JSON.parse] produces, and [undefined].  Numbers are carried
    as integers: no operation below looks inside a parsed number. *)
Inductive JsVal : Type :=
| JsUndefined
| JsNull
| JsBool (b : bool)
| JsNumber (n : Z)
| JsString (s : string)
| JsArray (items : list JsVal)
| JsObject (members : list (string * JsVal)).

(** What a [throw] or a rejection carries to a [catch]: any value.  A
    [catch] block reads the properties [code] and [message] of it; on
    [null] and [undefined] that read raises a [TypeError], on every other
    value it gives the property, [undefined] when there is none (as on a
    thrown string). *)
Inductive Thrown : Type :=
| ThrownNullish
| ThrownValue (code : option string) (message : JsVal).

(** An [Error] object, thrown. *)
Definition of_error (e : JsError) : Thrown :=
  ThrownValue (code e) (JsString (message e)).
Coercion of_error : JsError >-> Thrown.

(** A settled promise, or the outcome of a [try] block. *)
Inductive Result (A : Type) : Type :=
| Ok (a : A)
| Err (e : Thrown).
Arguments Ok {A} a.
Arguments Err {A} e.

Fixpoint member (key : string) (members : list (string * JsVal)) : JsVal :=
  match members with
  | [] => JsUndefined
  | (k, v) :: rest => if String.eqb k key then v else member key rest
  end.

(** [data.name]: reading a property of [null] or [undefined] raises a
    [TypeError]; primitives and arrays have no property of that name. *)
Definition get_name (data : JsVal) : Result JsVal :=
  match data with
  | JsUndefined | JsNull =>
      Err (newTypeError "Cannot read property 'name' of null")
  | JsObject members => Ok (member "name" members)
  | _ => Ok JsUndefined
  end.

(** Truthiness of an optional number and of an optional string. *)
Definition truthy_number (n : option Z) : bool :=
  match n with
  | Some n => negb (n =? 0)
  | None => false
  end.

Definition truthy_string (s : option string) : bool :=
  match s with
  | Some s => negb (String.eqb s EmptyString)
  | None => false
  end.

(** Decimal rendering of a number inside a template literal. *)
Definition number_to_string (n : Z) : string :=
  NilZero.string_of_int (Z.to_int n).

(** ** Data model of update.ts *)

(** [interface Update].  The [version] is declared a string, but it is
    whatever the release payload holds under [name]. *)
Record Update : Type := mkUpdate {
  checked : Z;
  version : JsVal
}.

(** [UpdateSettings]: the settings blob, with its optional [update] key. *)
Record Settings : Type := mkSettings {
  update : option Update
}.

(** [http.IncomingMessage]: status code, [headers.location], and the body
    stream: its chunks, and the error the stream ends with, if any. *)
Record IncomingMessage : Type := mkResponse {
  statusCode : option Z;
  location : option string;
  chunks : list string;
  streamError : option JsError
}.

(** What [httpx.get] calls back with: a response, or the client's error
    event. *)
Inductive GetOutcome : Type :=
| Responded (response : IncomingMessage)
| TransportError (e : JsError).

Inductive Level : Type := LDebug | LWarn | LError.

(** ** Asynchronous programs

    What a method of the provider does, in order.  [DateNow], [Log] and
    [Destroy] are synchronous: [Date.now()], a call of the logger, and
    [response.destroy()].  The other nodes are the awaits: the program is
    suspended until the operation completes, and resumes with its outcome.
    [SettingsRead] and [SettingsWrite] are [this.settings.read()] and
    [this.settings.write(s)]; [HttpGet uri] is [httpx.get(uri, ...)], with
    the module chosen by the scheme of [uri] and the fixed user agent;
    [ReadBody] waits for the end, or the error, of a response's stream. *)
Inductive Prog (A : Type) : Type :=
| Ret (a : A)
| Throw (e : Thrown)
| DateNow (k : Z -> Prog A)
| Log (lvl : Level) (msg : string) (fields : list (string * JsVal)) (k : Prog A)
| Destroy (response : IncomingMessage) (k : Prog A)
| SettingsRead (k : Result Settings -> Prog A)
| SettingsWrite (s : Settings) (k : Result unit -> Prog A)
| HttpGet (uri : string) (k : GetOutcome -> Prog A)
| ReadBody (response : IncomingMessage) (k : Result string -> Prog A).
Arguments Ret {A} a.
Arguments Throw {A} e.
Arguments DateNow {A} k.
Arguments Log {A} lvl msg fields k.
Arguments Destroy {A} response k.
Arguments SettingsRead {A} k.
Arguments SettingsWrite {A} s k.
Arguments HttpGet {A} uri k.
Arguments ReadBody {A} response k.

Fixpoint bind {A B : Type} (p : Prog A) (f : A -> Prog B) : Prog B :=
  match p with
  | Ret a => f a
  | Throw e => Throw e
  | DateNow k => DateNow (fun now => bind (k now) f)
  | Log lvl msg fields k => Log lvl msg fields (bind k f)
  | Destroy response k => Destroy response (bind k f)
  | SettingsRead k => SettingsRead (fun r => bind (k r) f)
  | SettingsWrite s k => SettingsWrite s (fun r => bind (k r) f)
  | HttpGet uri k => HttpGet uri (fun o => bind (k o) f)
  | ReadBody response k => ReadBody response (fun r => bind (k r) f)
  end.

(** [try { p } catch (error) { handler error }] *)
Fixpoint try_catch {A : Type} (p : Prog A) (handler : Thrown -> Prog A) : Prog A :=
  match p with
  | Ret a => Ret a
  | Throw e => handler e
  | DateNow k => DateNow (fun now => try_catch (k now) handler)
  | Log lvl msg fields k => Log lvl msg fields (try_catch k handler)
  | Destroy response k => Destroy response (try_catch k handler)
  | SettingsRead k => SettingsRead (fun r => try_catch (k r) handler)
  | SettingsWrite s k => SettingsWrite s (fun r => try_catch (k r) handler)
  | HttpGet uri k => HttpGet uri (fun o => try_catch (k o) handler)
  | ReadBody response k => ReadBody response (fun r => try_catch (k r) handler)
  end.

(** [await promise]: a rejection is thrown at the await. *)
Definition settle {A : Type} (r : Result A) : Prog A :=
  match r with
  | Ok a => Ret a
  | Err e => Throw e
  end.

Notation "x <- p ;; q" := (bind p (fun x => q))
  (at level 61, p at next level, right associativity).
Notation "p ;;; q" := (bind p (fun _ => q))
  (at level 61, right associativity).

Definition logger_debug (msg : string) (fields : list (string * JsVal)) : Prog unit :=
  Log LDebug msg fields (Ret tt).
Definition logger_error (msg : string) (fields : list (string * JsVal)) : Prog unit :=
  Log LError msg fields (Ret tt).
Definition date_now : Prog Z := DateNow (fun now => Ret now).
Definition settings_read : Prog Settings := SettingsRead settle.
Definition settings_write (s : Settings) : Prog unit := SettingsWrite s settle.

(** ** What the host provides

    [JSON.parse], [url.resolve], the string primitives and the [semver]
    package are not part of the repository; the provider is verified for every implementation of
    them.  [semver_parse] is the [SemVer] constructor ([None] when it throws
    its [TypeError]), [semver_compare] the [compare] method. *)
Class Platform : Type := {
  JSON_parse : string -> Result JsVal;
  url_resolve : string -> string -> string;
  SemVer : Type;
  semver_parse : string -> option SemVer;
  semver_compare : SemVer -> SemVer -> comparison;
  (** [subject.replace(/pattern/, replacement)] *)
  string_replace : string -> string -> string -> string;
  (** a value inside a template literal *)
  to_string : JsVal -> string
}.

(** The constructor arguments of [UpdateHttpProvider], and the version
    that the [currentVersion] getter reads from package.json.  The injected
    settings provider is the store of the environment, below. *)
Record UpdateHttpProvider : Type := mkProvider {
  enabled : bool;
  latestUrl : string;
  currentVersion : string
}.

(** Milliseconds between update checks. *)
Definition updateInterval : Z := 1000 * 60 * 60 * 24.

Definition maxRedirects : nat := 10.

Section Fetch.
Context {platform : Platform}.

(** [statusCode && statusCode >= 300 && statusCode < 400 && headers.location] *)
Definition is_redirect (response : IncomingMessage) : bool :=
  match statusCode response with
  | Some status =>
      negb (status =? 0) && (300 <=? status) && (status <? 400)
      && truthy_string (location response)
  | None => false
  end.

(** [!statusCode || statusCode < 200 || statusCode >= 400] *)
Definition is_bad_status (response : IncomingMessage) : bool :=
  match statusCode response with
  | Some status => (status =? 0) || (status <? 200) || (400 <=? status)
  | None => true
  end.

(** [`${uri}: ${response.statusCode || "500"}`] *)
Definition status_message (uri : string) (response : IncomingMessage) : string :=
  uri ++ ": " ++
  (if truthy_number (statusCode response)
   then number_to_string (match statusCode response with Some n => n | None => 0 end)
   else "500").

Definition location_of (response : IncomingMessage) : string :=
  match location response with
  | Some l => l
  | None => EmptyString
  end.

(** The inner function [request] of [requestResponse], with the counter
    [redirects] it closes over as an argument.  [budget] only makes the
    recursion structural: [requestResponse] starts it at [maxRedirects],
    and the branch that runs out of it is never taken
    ([request_budget_irrelevant]). *)
Fixpoint requestResponse_request (budget redirects : nat) (uri : string)
  : Prog IncomingMessage :=
  Log LDebug "Making request" [("uri", JsString uri)]
    (HttpGet uri (fun outcome =>
       match outcome with
       | TransportError e => Throw e
       | Responded response =>
           if is_redirect response then
             let redirects := S redirects in
             if (maxRedirects <? redirects)%nat then
               Throw (newError "reached max redirects")
             else
               Destroy response
                 match budget with
                 | S budget =>
                     requestResponse_request budget redirects
                       (url_resolve uri (location_of response))
                 | O => Throw (newError "redirect budget exhausted")
                 end
           else if is_bad_status response then
             Throw (newError (status_message uri response))
           else Ret response
       end)).

Definition requestResponse (uri : string) : Prog IncomingMessage :=
  requestResponse_request maxRedirects 0 uri.

(** [request]: the body of the accepted response, as one buffer. *)
Definition request (uri : string) : Prog string :=
  response <- requestResponse uri ;;
  ReadBody response settle.

Definition fallback (now : Z) : Update := mkUpdate now (JsString "unknown").

(** The body of the [if]: fetch the payload, build the record, store it. *)
Definition fetch_update (this : UpdateHttpProvider) (now : Z) : Prog Update :=
  buffer <- request (latestUrl this) ;;
  data <- settle (JSON_parse buffer) ;;
  name <- settle (get_name data) ;;
  let update := mkUpdate now name in
  settings_write (mkSettings (Some update)) ;;;
  Ret update.

(** The [try] block of [_getUpdate]. *)
Definition _getUpdate_try (this : UpdateHttpProvider) (force : bool) (now : Z)
  : Prog Update :=
  settings <- (if negb force then settings_read else Ret (mkSettings None)) ;;
  update <-
    (* [!update || update.checked + this.updateInterval < now] *)
    match update settings with
    | None => fetch_update this now
    | Some update =>
        if checked update + updateInterval <? now
        then fetch_update this now
        else Ret update
    end ;;
  logger_debug "got latest version" [("latest", version update)] ;;;
  Ret update.

(** The [catch] block of [_getUpdate].  It reads [error.message] for the
    log line, which raises a [TypeError] out of the block when the value
    caught is [null] or [undefined]: nothing is logged then, and
    [_getUpdate] rejects. *)
Definition _getUpdate_catch (now : Z) (error : Thrown) : Prog Update :=
  match error with
  | ThrownNullish =>
      Throw (newTypeError "Cannot read property 'message' of null")
  | ThrownValue _ message =>
      logger_error "Failed to get latest version" [("error", message)] ;;;
      Ret (fallback now)
  end.

Definition _getUpdate (this : UpdateHttpProvider) (force : bool) : Prog Update :=
  now <- date_now ;;
  try_catch (_getUpdate_try this force now) (_getUpdate_catch now).

(** [semver.lt(a, b)]: [compare(a, b) < 0]; a value that is not a string,
    or a string that is not a version, makes the constructor throw. *)
Definition semver_lt (a : JsVal) (b : string) : Result bool :=
  match a with
  | JsString a =>
      match semver_parse a, semver_parse b with
      | Some va, Some vb =>
          Ok (match semver_compare va vb with Lt => true | _ => false end)
      | None, _ => Err (newTypeError ("Invalid Version: " ++ a))
      | _, None => Err (newTypeError ("Invalid Version: " ++ b))
      end
  | _ => Err (newTypeError "Invalid Version")
  end.

(** [latest.version === version] *)
Definition strict_equal (v : JsVal) (s : string) : bool :=
  match v with
  | JsString v => String.eqb v s
  | _ => false
  end.

Definition isLatestVersion (this : UpdateHttpProvider) (latest : Update) : Prog bool :=
  let version_ := currentVersion this in
  logger_debug "comparing versions"
    [("current", JsString version_); ("latest", version latest)] ;;;
  match
    (if strict_equal (version latest) version_ then Ok true
     else semver_lt (version latest) version_)
  with
  | Ok b => Ret b
  | Err _ => Ret true
  end.

End Fetch.

(** ** The environment, and running a program to completion

    The environment is scripted, the way a test double is: [network] holds
    the outcomes of the successive GET requests (when it is used up, the
    connection is refused), [faults] the value, if any, that each
    successive operation on the settings store rejects with (when it is
    used up, the store works).  The settings provider is injected, so it
    may reject with any value, [null] and [undefined] included; the
    errors of the network and of a body stream are the [Error] objects
    that Node emits.  A write that fails leaves the stored blob as it
    was: this is the rule of this environment, not of the provider.  Every
    operation completes, and [httpx.get] itself does not throw.
    [trace] records, oldest first, what the program did. *)
Inductive Event : Type :=
| EvLog (lvl : Level) (msg : string) (fields : list (string * JsVal))
| EvDestroy (response : IncomingMessage)
| EvRead
| EvWrite (s : Settings)
| EvGet (uri : string)
| EvBody (response : IncomingMessage).

Record World : Type := mkWorld {
  clock : Z;
  store : Settings;
  network : list GetOutcome;
  faults : list (option Thrown);
  trace : list Event
}.

Definition emit (e : Event) (w : World) : World :=
  mkWorld (clock w) (store w) (network w) (faults w) (trace w ++ [e]).

Definition connection_refused : JsError :=
  mkError (Some "ECONNREFUSED") "connect ECONNREFUSED".

Definition next_fault (w : World) : option Thrown * World :=
  match faults w with
  | fault :: rest => (fault, mkWorld (clock w) (store w) (network w) rest (trace w))
  | [] => (None, w)
  end.

Definition answer_read (w : World) : Result Settings * World :=
  let (fault, w) := next_fault w in
  match fault with
  | Some e => (Err e, w)
  | None => (Ok (store w), w)
  end.

Definition answer_write (s : Settings) (w : World) : Result unit * World :=
  let (fault, w) := next_fault w in
  match fault with
  | Some e => (Err e, w)
  | None => (Ok tt, mkWorld (clock w) s (network w) (faults w) (trace w))
  end.

Definition answer_get (w : World) : GetOutcome * World :=
  match network w with
  | outcome :: rest =>
      (outcome, mkWorld (clock w) (store w) rest (faults w) (trace w))
  | [] => (TransportError connection_refused, w)
  end.

(** The [data], [error] and [end] events of a response: [Buffer.concat] of
    the chunks, unless the stream fails. *)
Definition answer_body (response : IncomingMessage) : Result string :=
  match streamError response with
  | Some e => Err e
  | None => Ok (String.concat EmptyString (chunks response))
  end.

Fixpoint run {A : Type} (p : Prog A) (w : World) : Result A * World :=
  match p with
  | Ret a => (Ok a, w)
  | Throw e => (Err e, w)
  | DateNow k => run (k (clock w)) w
  | Log lvl msg fields k => run k (emit (EvLog lvl msg fields) w)
  | Destroy response k => run k (emit (EvDestroy response) w)
  | SettingsRead k =>
      let (r, w') := answer_read (emit EvRead w) in run (k r) w'
  | SettingsWrite s k =>
      let (r, w') := answer_write s (emit (EvWrite s) w) in run (k r) w'
  | HttpGet uri k =>
      let (o, w') := answer_get (emit (EvGet uri) w) in run (k o) w'
  | ReadBody response k =>
      run (k (answer_body response)) (emit (EvBody response) w)
  end.

(** The URIs requested, in order. *)
Fixpoint gets (t : list Event) : list string :=
  match t with
  | [] => []
  | EvGet uri :: t => uri :: gets t
  | _ :: t => gets t
  end.

(** The blobs passed to [settings.write], in order. *)
Fixpoint writes (t : list Event) : list Settings :=
  match t with
  | [] => []
  | EvWrite s :: t => s :: writes t
  | _ :: t => writes t
  end.

(** The number of reads of the settings store. *)
Fixpoint reads (t : list Event) : nat :=
  match t with
  | [] => O
  | EvRead :: t => S (reads t)
  | _ :: t => reads t
  end.

(** The events a run added to the trace. *)
Definition new_events (before after : World) : list Event :=
  skipn (List.length (trace before)) (trace after).

(** ** The event loop

    A check started by [getUpdate] runs until its first await, and is then
    resumed, one await at a time, when the awaited operation completes;
    calls of [getUpdate] arrive in between.  [this_update] is the field
    [this.update]; [promises] holds every promise [_getUpdate] returned,
    with the suspended check while it is pending.  Nothing makes an
    operation complete: a request that is never answered is a schedule
    without the turn [Io p], in which the check stays in flight. *)
Module Loop.

Definition PromiseId : Type := nat.

Inductive PromiseState : Type :=
| Pending (check : Prog Update)
| Settled (r : Result Update).

Record Process : Type := mkProcess {
  world : World;
  this_update : option PromiseId;
  promises : list (PromiseId * PromiseState);
  next_promise : PromiseId
}.

Definition init (w : World) : Process := mkProcess w None [] O.

Fixpoint lookup (p : PromiseId) (table : list (PromiseId * PromiseState))
  : option PromiseState :=
  match table with
  | [] => None
  | (q, st) :: rest => if Nat.eqb q p then Some st else lookup p rest
  end.

Fixpoint set_state (p : PromiseId) (st : PromiseState)
  (table : list (PromiseId * PromiseState)) : list (PromiseId * PromiseState) :=
  match table with
  | [] => []
  | (q, old) :: rest =>
      if Nat.eqb q p then (q, st) :: rest else (q, old) :: set_state p st rest
  end.

(** The checks in flight. *)
Fixpoint in_flight (table : list (PromiseId * PromiseState)) : list PromiseId :=
  match table with
  | [] => []
  | (q, Pending _) :: rest => q :: in_flight rest
  | (_, Settled _) :: rest => in_flight rest
  end.

(** Run a program up to its next await, whose operation is started. *)
Fixpoint advance {A : Type} (p : Prog A) (w : World) : Prog A * World :=
  match p with
  | DateNow k => advance (k (clock w)) w
  | Log lvl msg fields k => advance k (emit (EvLog lvl msg fields) w)
  | Destroy response k => advance k (emit (EvDestroy response) w)
  | SettingsRead _ => (p, emit EvRead w)
  | SettingsWrite s _ => (p, emit (EvWrite s) w)
  | HttpGet uri _ => (p, emit (EvGet uri) w)
  | ReadBody response _ => (p, emit (EvBody response) w)
  | Ret _ | Throw _ => (p, w)
  end.

(** The awaited operation completes: the program resumes, up to its next
    await. *)
Definition resume {A : Type} (p : Prog A) (w : World) : Prog A * World :=
  match p with
  | SettingsRead k => let (r, w') := answer_read w in advance (k r) w'
  | SettingsWrite s k => let (r, w') := answer_write s w in advance (k r) w'
  | HttpGet uri k => let (o, w') := answer_get w in advance (k o) w'
  | ReadBody response k => advance (k (answer_body response)) w
  | _ => (p, w)
  end.

(** Run a suspended program to completion. *)
Definition finish {A : Type} (p : Prog A) (w : World) : Result A * World :=
  match p with
  | SettingsRead k => let (r, w') := answer_read w in run (k r) w'
  | SettingsWrite s k => let (r, w') := answer_write s w in run (k r) w'
  | HttpGet uri k => let (o, w') := answer_get w in run (k o) w'
  | ReadBody response k => run (k (answer_body response)) w
  | _ => run p w
  end.

Section Provider.
Context {platform : Platform}.
Variable this : UpdateHttpProvider.

(** [getUpdate]: the promise the caller awaits, or the rejection when
    updates are disabled.  [force] is [false] when the argument is
    omitted. *)
Definition getUpdate (force : bool) (s : Process) : Result PromiseId * Process :=
  if negb (enabled this) then
    (Err (newError "updates are not enabled"), s)
  else
    match this_update s with
    | Some p => (Ok p, s)
    | None =>
        let p := next_promise s in
        let (check, w) := advance (_getUpdate this force) (world s) in
        (Ok p, mkProcess w (Some p) ((p, Pending check) :: promises s) (S p))
    end.

(** The operation awaited by the check [p] completes.  When the check
    returns, its promise is fulfilled and the reaction registered by
    [getUpdate], [() => (this.update = undefined)], runs before any
    other reaction to it; a rejection has no reaction. *)
Definition deliver (p : PromiseId) (s : Process) : Process :=
  match lookup p (promises s) with
  | Some (Pending check) =>
      let (check', w) := resume check (world s) in
      match check' with
      | Ret u =>
          mkProcess w None (set_state p (Settled (Ok u)) (promises s))
            (next_promise s)
      | Throw e =>
          mkProcess w (this_update s)
            (set_state p (Settled (Err e)) (promises s)) (next_promise s)
      | _ =>
          mkProcess w (this_update s)
            (set_state p (Pending check') (promises s)) (next_promise s)
      end
  | _ => s
  end.

Definition elapse (ms : Z) (s : Process) : Process :=
  let w := world s in
  mkProcess (mkWorld (clock w + ms) (store w) (network w) (faults w) (trace w))
    (this_update s) (promises s) (next_promise s).

(** What the event loop does, turn by turn. *)
Inductive Action : Type :=
| Call (force : bool)
| Io (p : PromiseId)
| Elapse (ms : Z).

Definition step (a : Action) (s : Process) : Process :=
  match a with
  | Call force => snd (getUpdate force s)
  | Io p => deliver p s
  | Elapse ms => elapse ms s
  end.

Definition exec (schedule : list Action) (s : Process) : Process :=
  fold_left (fun s a => step a s) schedule s.


(** The event loop runs, no request arriving, until the promise [p] has
    settled, every operation its check awaits being taken to complete;
    [None] for an identifier that names no promise. *)
Definition await (p : PromiseId) (s : Process) : option (Result Update * Process) :=
  match lookup p (promises s) with
  | Some (Settled r) => Some (r, s)
  | Some (Pending check) =>
      let (r, w) := finish check (world s) in
      Some (r, mkProcess w
                 (match r with Ok _ => None | Err _ => this_update s end)
                 (set_state p (Settled r) (promises s)) (next_promise s))
  | None => None
  end.

End Provider.
End Loop.

(** ** The status surface

    [getRoot] and [getUpdateHtml]; [handleRequest], which routes to them,
    comes after them. *)

(** The content of a response: the JSON status object, either
    [{ isLatest }] alone or [{ ...update, isLatest }], or a page. *)
Inductive Content : Type :=
| JsonStatus (record : option Update) (isLatest : bool)
| Page (html : string).

Record HttpResponse : Type := mkHttpResponse {
  content : Content
}.

(** What [getRoot] uses of the base class [HttpProvider], which is not in
    the sources at hand: it is a parameter. *)
Record HttpProvider : Type := mkBase {
  rootPath : string;
  getUtf8Resource : string -> string -> Result string;
  replaceTemplates : string -> string
}.

(** The methods of the surface await [getUpdate] and call
    [isLatestVersion]; a term of [Task] is what such a method does, in
    order. *)
Inductive Task (A : Type) : Type :=
| TRet (a : A)
| TThrow (e : Thrown)
| AwaitGetUpdate (force : bool) (k : Update -> Task A)
| CallIsLatestVersion (latest : Update) (k : bool -> Task A).
Arguments TRet {A} a.
Arguments TThrow {A} e.
Arguments AwaitGetUpdate {A} force k.
Arguments CallIsLatestVersion {A} latest k.

Fixpoint tbind {A B : Type} (t : Task A) (f : A -> Task B) : Task B :=
  match t with
  | TRet a => f a
  | TThrow e => TThrow e
  | AwaitGetUpdate force k => AwaitGetUpdate force (fun u => tbind (k u) f)
  | CallIsLatestVersion latest k => CallIsLatestVersion latest (fun b => tbind (k b) f)
  end.

Definition double_quote : string := String (ascii_of_nat 34) EmptyString.

Section Surface.
Context {platform : Platform}.
Variable this : UpdateHttpProvider.
Variable base : HttpProvider.

Definition getUpdateHtml : Task string :=
  if negb (enabled this) then TRet "Updates are disabled"
  else
    AwaitGetUpdate false (fun update =>
    CallIsLatestVersion update (fun latest =>
    if latest then TRet "No update available"
    else TRet ("<button type=" ++ double_quote ++ "submit" ++ double_quote
               ++ " class=" ++ double_quote ++ "apply -button" ++ double_quote
               ++ ">Update to " ++ to_string (version update) ++ "</button>"))).

(** [getRoot]; [json] is [request.headers["content-type"] ===
    "application/json"], and [errorOrUpdate] the optional third
    argument. *)
Definition getRoot (json : bool) (errorOrUpdate : option (Update + JsError))
  : Task HttpResponse :=
  if json then
    if negb (enabled this) then TRet (mkHttpResponse (JsonStatus None true))
    else
      AwaitGetUpdate false (fun update =>
      CallIsLatestVersion update (fun latest =>
      TRet (mkHttpResponse (JsonStatus (Some update) latest))))
  else
    match getUtf8Resource base (rootPath base) "src/browser/pages/update.html" with
    | Err e => TThrow e
    | Ok page =>
        tbind
          (match errorOrUpdate with
           | Some (inl updated) => TRet ("Updated to " ++ to_string (version updated))
           | _ => getUpdateHtml
           end)
          (fun status =>
             let page := string_replace "{{UPDATE_STATUS}}" status page in
             let page :=
               string_replace "{{ERROR}}"
                 (match errorOrUpdate with
                  | Some (inr error) =>
                      "<div class=" ++ double_quote ++ "error" ++ double_quote ++ ">"
                      ++ message error ++ "</div>"
                  | _ => EmptyString
                  end) page in
             TRet (mkHttpResponse (Page (replaceTemplates base page))))
    end.

(** A method of the surface run on its own, the operations of the check
    it awaits being taken to complete: the check is completed before
    anything else happens, and its rejection is thrown at the await.
    [None] only if [getUpdate] returned an identifier that names no
    promise. *)
Fixpoint run_task {A : Type} (t : Task A) (s : Loop.Process)
  : option (Result A * Loop.Process) :=
  match t with
  | TRet a => Some (Ok a, s)
  | TThrow e => Some (Err e, s)
  | AwaitGetUpdate force k =>
      match Loop.getUpdate this force s with
      | (Err e, s) => Some (Err e, s)
      | (Ok p, s) =>
          match Loop.await p s with
          | Some (Ok u, s) => run_task (k u) s
          | Some (Err e, s) => Some (Err e, s)
          | None => None
          end
      end
  | CallIsLatestVersion latest k =>
      let w := Loop.world s in
      match run (isLatestVersion this latest) w with
      | (Ok b, w) =>
          run_task (k b)
            (Loop.mkProcess w (Loop.this_update s) (Loop.promises s)
               (Loop.next_promise s))
      | (Err e, w) =>
          Some (Err e,
                Loop.mkProcess w (Loop.this_update s) (Loop.promises s)
                  (Loop.next_promise s))
      end
  end.

End Surface.

(** ** Request handling

    [handleRequest], with what it uses of the routing layer. *)
Module Http.

(** [HttpCode]: the member the provider names; [Other] stands for the
    remaining ones. *)
Inductive HttpCode : Type :=
| NotFound
| Other (status : Z).

(** What a handler throws: an [HttpError], or another error. *)
Inductive Failure : Type :=
| HttpError (message : string) (code : HttpCode)
| Error (e : Thrown).

(** A member of a parsed query: absent, a string, or an array of
    strings. *)
Inductive QueryValue : Type :=
| Absent
| Single (value : string)
| Many (values : list string).

(** [Route]: its [base], and of its [query] the member [to] ([None] when
    [route.query] is itself undefined). *)
Record Route : Type := mkRoute {
  base : string;
  query : option QueryValue
}.

(** The incoming request: its method and its headers. *)
Record Request : Type := mkRequest {
  method : string;
  headers : list (string * string)
}.

Fixpoint header (name : string) (hs : list (string * string)) : option string :=
  match hs with
  | [] => None
  | (k, v) :: rest => if String.eqb k name then Some v else header name rest
  end.

(** What [handleRequest] resolves to: a redirect with the query it sets,
    or the response of [getRoot]. *)
Inductive Answer : Type :=
| Redirect (redirect : option string) (query : list (string * JsVal))
| Respond (response : HttpResponse).

(** The methods of the base class that [handleRequest] calls first; the
    two [ensure] methods return, or throw what is given here. *)
Record Guards : Type := mkGuards {
  ensureAuthenticated : Request -> option Failure;
  ensureMethod : Request -> option Failure;
  isRoot : Route -> bool
}.

(** A handled request: the rejection or the answer; the promise of the
    forced check, which [handleRequest] does not await; and the process
    when the request is settled. *)
Record Handled : Type := mkHandled {
  reply : Failure + Answer;
  floating : option (Result Loop.PromiseId);
  process : Loop.Process
}.

End Http.

Section Handler.
Context {platform : Platform}.
Variable this : UpdateHttpProvider.
Variable guards : Http.Guards.
(** The base class as [getRoot] uses it; [replaceTemplates] reads the
    route. *)
Variable provider : Http.Route -> HttpProvider.

(** [request.headers["content-type"] === "application/json"] *)
Definition is_json (request : Http.Request) : bool :=
  match Http.header "content-type" (Http.headers request) with
  | Some value => String.eqb value "application/json"
  | None => false
  end.

(** [route.query && route.query.to], and when that is truthy the value
    [Array.isArray(route.query.to) ? route.query.to[0] : route.query.to],
    which is [undefined] for an empty array. *)
Definition redirect_target (route : Http.Route) : option (option string) :=
  match Http.query route with
  | Some (Http.Single value) =>
      if String.eqb value EmptyString then None else Some (Some value)
  | Some (Http.Many values) => Some (hd_error values)
  | Some Http.Absent | None => None
  end.

(** [return this.getRoot(route, request)] *)
Definition answer_root (route : Http.Route) (request : Http.Request)
  (floating : option (Result Loop.PromiseId)) (s : Loop.Process)
  : option Http.Handled :=
  match run_task this (getRoot this (provider route) (is_json request) None) s with
  | Some (Ok response, s) => Some (Http.mkHandled (inr (Http.Respond response)) floating s)
  | Some (Err e, s) => Some (Http.mkHandled (inl (Http.Error e)) floating s)
  | None => None
  end.

Definition route_not_found : Http.Failure := Http.HttpError "Not found" Http.NotFound.

Definition handleRequest (route : Http.Route) (request : Http.Request)
  (s : Loop.Process) : option Http.Handled :=
  match Http.ensureAuthenticated guards request with
  | Some failure => Some (Http.mkHandled (inl failure) None s)
  | None =>
      match Http.ensureMethod guards request with
      | Some failure => Some (Http.mkHandled (inl failure) None s)
      | None =>
          if negb (Http.isRoot guards route) then
            Some (Http.mkHandled (inl route_not_found) None s)
          else if String.eqb (Http.base route) "/check" then
            let (forced, s) := Loop.getUpdate this true s in
            match redirect_target route with
            | Some target =>
                Some (Http.mkHandled
                        (inr (Http.Redirect target [("to", JsUndefined)]))
                        (Some forced) s)
            | None => answer_root route request (Some forced) s
            end
          else if String.eqb (Http.base route) "/" then
            answer_root route request None s
          else Some (Http.mkHandled (inl route_not_found) None s)
      end
  end.

End Handler.

(** ** A concrete platform

    The properties below hold for every [Platform].  To evaluate the
    provider on concrete inputs, this section gives one: the grammar and
    the precedence of the [semver] package in its strict mode, and small
    string primitives. *)
Module Semver.

Inductive Identifier : Type :=
| Numeric (n : N)
| Alphanumeric (s : string).

Record SemVer : Type := mkSemVer {
  major : N;
  minor : N;
  patch : N;
  prerelease : list Identifier;
  build : list string
}.

Definition MAX_LENGTH : nat := 256.
Definition MAX_SAFE_INTEGER : N := 9007199254740991.

Definition is_digit (c : ascii) : bool :=
  let n := nat_of_ascii c in (48 <=? n)%nat && (n <=? 57)%nat.

Definition is_letter (c : ascii) : bool :=
  let n := nat_of_ascii c in
  ((65 <=? n)%nat && (n <=? 90)%nat) || ((97 <=? n)%nat && (n <=? 122)%nat).

Definition is_identifier_char (c : ascii) : bool :=
  is_digit c || is_letter c || Ascii.eqb c "-"%char.

Definition is_space (c : ascii) : bool :=
  let n := nat_of_ascii c in
  (n =? 32)%nat || ((9 <=? n)%nat && (n <=? 13)%nat).

Fixpoint all_chars (f : ascii -> bool) (s : string) : bool :=
  match s with
  | EmptyString => true
  | String c rest => f c && all_chars f rest
  end.

Fixpoint digits_value (s : string) (acc : N) : N :=
  match s with
  | EmptyString => acc
  | String c rest =>
      digits_value rest (10 * acc + N.of_nat (nat_of_ascii c - 48))%N
  end.

(** [0|[1-9]\d*] *)
Definition is_numeric_identifier (s : string) : bool :=
  match s with
  | EmptyString => false
  | String c rest =>
      all_chars is_digit s
      && (negb (Ascii.eqb c "0"%char) || String.eqb rest EmptyString)
  end.

(** The fields of [s] between the separators [sep]. *)
Fixpoint split_on (sep : ascii) (s : string) : list string :=
  match s with
  | EmptyString => [EmptyString]
  | String c rest =>
      if Ascii.eqb c sep then EmptyString :: split_on sep rest
      else
        match split_on sep rest with
        | field :: fields => String c field :: fields
        | [] => [String c EmptyString]
        end
  end.

(** [s] cut at the first [sep], if there is one. *)
Fixpoint cut (sep : ascii) (s : string) : string * option string :=
  match s with
  | EmptyString => (EmptyString, None)
  | String c rest =>
      if Ascii.eqb c sep then (EmptyString, Some rest)
      else let (before, after) := cut sep rest in (String c before, after)
  end.

Fixpoint trim_start (s : string) : string :=
  match s with
  | String c rest => if is_space c then trim_start rest else s
  | EmptyString => s
  end.

Fixpoint reverse (s acc : string) : string :=
  match s with
  | EmptyString => acc
  | String c rest => reverse rest (String c acc)
  end.

Definition trim (s : string) : string :=
  reverse (trim_start (reverse (trim_start s) EmptyString)) EmptyString.

Definition main_number (s : string) : option N :=
  if is_numeric_identifier s then
    let n := digits_value s 0 in
    if (n <=? MAX_SAFE_INTEGER)%N then Some n else None
  else None.

(** A prerelease identifier.  A numeric one is carried as its value:
    this is the package's reading of it below [MAX_SAFE_INTEGER]; from
    there on the package keeps it as text and compares it as a floating
    point number, which this model does not follow. *)
Definition prerelease_identifier (s : string) : option Identifier :=
  match s with
  | EmptyString => None
  | _ =>
      if all_chars is_digit s then
        if is_numeric_identifier s then Some (Numeric (digits_value s 0)) else None
      else if all_chars is_identifier_char s then Some (Alphanumeric s)
      else None
  end.

Definition build_identifier (s : string) : option string :=
  match s with
  | EmptyString => None
  | _ => if all_chars is_identifier_char s then Some s else None
  end.

Fixpoint traverse {A B : Type} (f : A -> option B) (l : list A) : option (list B) :=
  match l with
  | [] => Some []
  | a :: rest =>
      match f a, traverse f rest with
      | Some b, Some bs => Some (b :: bs)
      | _, _ => None
      end
  end.

Definition optional_part {B : Type} (f : string -> option B) (part : option string)
  : option (list B) :=
  match part with
  | None => Some []
  | Some text => traverse f (split_on "."%char text)
  end.

(** [new SemVer(version)]; [None] when it throws. *)
Definition parse (version : string) : option SemVer :=
  if (MAX_LENGTH <? String.length version)%nat then None
  else
    let text := trim version in
    let text :=
      match text with
      | String "v"%char rest => rest
      | _ => text
      end in
    let (rest, build_part) := cut "+"%char text in
    let (main, prerelease_part) := cut "-"%char rest in
    match split_on "."%char main with
    | [a; b; c] =>
        match main_number a, main_number b, main_number c,
              optional_part prerelease_identifier prerelease_part,
              optional_part build_identifier build_part
        with
        | Some a, Some b, Some c, Some pre, Some bld => Some (mkSemVer a b c pre bld)
        | _, _, _, _, _ => None
        end
    | _ => None
    end.

Definition compareIdentifiers (a b : Identifier) : comparison :=
  match a, b with
  | Numeric a, Numeric b => N.compare a b
  | Numeric _, Alphanumeric _ => Lt
  | Alphanumeric _, Numeric _ => Gt
  | Alphanumeric a, Alphanumeric b => String.compare a b
  end.

Fixpoint comparePre_from (a b : list Identifier) : comparison :=
  match a, b with
  | [], [] => Eq
  | _ :: _, [] => Gt
  | [], _ :: _ => Lt
  | x :: a, y :: b =>
      match compareIdentifiers x y with
      | Eq => comparePre_from a b
      | c => c
      end
  end.

Definition comparePre (a b : SemVer) : comparison :=
  match prerelease a, prerelease b with
  | _ :: _, [] => Lt
  | [], _ :: _ => Gt
  | [], [] => Eq
  | pa, pb => comparePre_from pa pb
  end.

Definition compareMain (a b : SemVer) : comparison :=
  match N.compare (major a) (major b) with
  | Eq =>
      match N.compare (minor a) (minor b) with
      | Eq => N.compare (patch a) (patch b)
      | c => c
      end
  | c => c
  end.

Definition compare (a b : SemVer) : comparison :=
  match compareMain a b with
  | Eq => comparePre a b
  | c => c
  end.

End Semver.

Module Concrete.

(** The payload [{"name":"<name>"}]. *)
Definition release_payload (name : string) : string :=
  "{" ++ double_quote ++ "name" ++ double_quote ++ ":"
  ++ double_quote ++ name ++ double_quote ++ "}".

Fixpoint strip_prefix (prefix s : string) : option string :=
  match prefix, s with
  | EmptyString, _ => Some s
  | String a prefix, String b s => if Ascii.eqb a b then strip_prefix prefix s else None
  | String _ _, EmptyString => None
  end.

Definition strip_suffix (suffix s : string) : option string :=
  match strip_prefix (Semver.reverse suffix EmptyString) (Semver.reverse s EmptyString) with
  | Some rest => Some (Semver.reverse rest EmptyString)
  | None => None
  end.

Definition plain_char (c : ascii) : bool :=
  let n := nat_of_ascii c in
  (32 <=? n)%nat && negb (n =? 34)%nat && negb (n =? 92)%nat.

(** [JSON.parse] on the texts [null], [{}] and [{"name":"<name>"}] for a
    [name] without escapes; on these it agrees with [JSON.parse], and it
    reports every other text as a syntax error. *)
Definition parse_json (text : string) : Result JsVal :=
  if String.eqb text "null" then Ok JsNull
  else if String.eqb text "{}" then Ok (JsObject [])
  else
    match strip_prefix ("{" ++ double_quote ++ "name" ++ double_quote ++ ":" ++ double_quote) text with
    | Some rest =>
        match strip_suffix (double_quote ++ "}") rest with
        | Some name =>
            if Semver.all_chars plain_char name
            then Ok (JsObject [("name", JsString name)])
            else Err (mkError None "Unexpected token in JSON")
        | None => Err (mkError None "Unexpected end of JSON input")
        end
    | None => Err (mkError None "Unexpected token in JSON")
    end.

(** [subject.replace(pattern, replacement)] for a pattern and a
    replacement without special characters: the first occurrence. *)
Definition replace_first (pattern replacement subject : string) : string :=
  match String.index 0 pattern subject with
  | Some i =>
      String.substring 0 i subject ++ replacement
      ++ String.substring (i + String.length pattern)
           (String.length subject - (i + String.length pattern)) subject
  | None => subject
  end.

Definition render (v : JsVal) : string :=
  match v with
  | JsUndefined => "undefined"
  | JsNull => "null"
  | JsBool true => "true"
  | JsBool false => "false"
  | JsNumber n => number_to_string n
  | JsString s => s
  | JsArray _ => EmptyString
  | JsObject _ => "[object Object]"
  end.

(** [url.resolve(from, to)] for an absolute [to]. *)
Definition resolve (from to : string) : string := to.

Definition platform : Platform := {|
  JSON_parse := parse_json;
  url_resolve := resolve;
  SemVer := Semver.SemVer;
  semver_parse := Semver.parse;
  semver_compare := Semver.compare;
  string_replace := replace_first;
  to_string := render
|}.

End Concrete.

(** ** Plugin loading (src/node/plugin.ts) *)
Module Plugin.

(** A settled promise. *)
Inductive Outcome : Type :=
| Resolved
| Rejected (t : Thrown).

(** [fs.Dirent] *)
Record Dirent : Type := mkDirent {
  name : string;
  isDirectory : bool
}.

(** What [require(pluginDir)] evaluates to: a module whose [activate]
    can be called, and then returns or throws, or one without a
    callable [activate]. *)
Inductive Exports : Type :=
| Activate (thrown : option Thrown)
| NotCallable.

(** The file system and the module loader ([require], through the
    [_load] hook the file installs). *)
Record Env : Type := mkEnv {
  pluginDir : string;
  readdir : JsError + list Dirent;
  path_join : string -> string -> string;
  path_basename : string -> string;
  require : string -> Thrown + Exports
}.

Inductive Effect : Type :=
| Logged (lvl : Level) (msg : JsVal) (fields : list (string * JsVal))
| Activated (pluginDir : string).

Definition str_eq (a : option string) (b : string) : bool :=
  match a with
  | Some a => String.eqb a b
  | None => false
  end.

(** The [catch] block of [loadPlugin].  Reading [error.code] of [null]
    or [undefined] raises a [TypeError] out of the block. *)
Definition loadPlugin_catch (error : Thrown) : Outcome * list Effect :=
  match error with
  | ThrownNullish =>
      (Rejected (ThrownValue None (JsString "Cannot read property 'code' of null")), [])
  | ThrownValue code message =>
      if negb (str_eq code "MODULE_NOT_FOUND")
      then (Resolved, [Logged LWarn message []])
      else (Resolved, [Logged LDebug message []])
  end.

Definition loadPlugin (env : Env) (pluginDir : string) : Outcome * list Effect :=
  match require env pluginDir with
  | inl error => loadPlugin_catch error
  | inr NotCallable =>
      loadPlugin_catch
        (ThrownValue None (JsString "plugin.activate is not a function"))
  | inr (Activate (Some error)) => loadPlugin_catch error
  | inr (Activate None) =>
      (Resolved,
       [Activated pluginDir;
        Logged LDebug (JsString "Loaded plugin")
          [("name", JsString (path_basename env pluginDir))]])
  end.

(** [Promise.all] of promises that have all settled already: the first
    rejection, in order. *)
Fixpoint promise_all (outcomes : list Outcome) : Outcome :=
  match outcomes with
  | [] => Resolved
  | Resolved :: rest => promise_all rest
  | Rejected t :: _ => Rejected t
  end.

(** The callback of [files.map]. *)
Definition load_entry (env : Env) (file : Dirent) : Outcome * list Effect :=
  if negb (isDirectory file) then (Resolved, [])
  else loadPlugin env (path_join env (pluginDir env) (name file)).

Definition _loadPlugins (env : Env) : Outcome * list Effect :=
  match readdir env with
  | inl error => (Rejected (of_error error), [])
  | inr files =>
      let settled := map (load_entry env) files in
      (promise_all (map fst settled), List.concat (map snd settled))
  end.

Definition loadPlugins (env : Env) : Outcome * list Effect :=
  match _loadPlugins env with
  | (Resolved, effects) => (Resolved, effects)
  | (Rejected ThrownNullish, effects) =>
      (Rejected (ThrownValue None (JsString "Cannot read property 'code' of null")),
       effects)
  | (Rejected (ThrownValue code message), effects) =>
      if negb (str_eq code "ENOENT")
      then (Resolved, (effects ++ [Logged LWarn message []])%list)
      else (Resolved, effects)
  end.

End Plugin.

(** ** Vocabulary of the properties *)

(** A world [w'] that a program reached from [w]: the trace has grown by
    [t], and the clock has not moved. *)
Definition extends (w w' : World) (t : list Event) : Prop :=
  trace w' = (trace w ++ t)%list /\ clock w' = clock w.

Definition request_log (uri : string) : Event :=
  EvLog LDebug "Making request" [("uri", JsString uri)].

(** The world once a GET of [uri] has been issued and the next scripted
    outcome taken. *)
Definition requested (uri : string) (w : World) : World :=
  snd (answer_get (emit (EvGet uri) (emit (request_log uri) w))).

Section Chains.
Context {platform : Platform}.

(** The URI reached after following the redirects [rs] from [uri]. *)
Fixpoint follow (uri : string) (rs : list IncomingMessage) : string :=
  match rs with
  | [] => uri
  | r :: rs => follow (url_resolve uri (location_of r)) rs
  end.

(** The URIs requested on the way. *)
Fixpoint visited (uri : string) (rs : list IncomingMessage) : list string :=
  match rs with
  | [] => []
  | r :: rs => uri :: visited (url_resolve uri (location_of r)) rs
  end.

(** What following the redirects [rs] from [uri] leaves in the trace,
    event by event: for each redirect the log line and the request, then
    the destruction of the response, and only then the next request. *)
Fixpoint followed (uri : string) (rs : list IncomingMessage) : list Event :=
  match rs with
  | [] => []
  | r :: rs =>
      EvLog LDebug "Making request" [("uri", JsString uri)]
      :: EvGet uri :: EvDestroy r
      :: followed (url_resolve uri (location_of r)) rs
  end.
End Chains.

(** A program that touches nothing but the network and the log. *)
Inductive net_only {A : Type} : Prog A -> Prop :=
| NetRet (a : A) : net_only (Ret a)
| NetThrow (e : Thrown) : net_only (Throw e)
| NetDateNow (k : Z -> Prog A) :
    (forall now, net_only (k now)) -> net_only (DateNow k)
| NetLog (lvl : Level) (msg : string) (fields : list (string * JsVal)) (k : Prog A) :
    net_only k -> net_only (Log lvl msg fields k)
| NetDestroy (response : IncomingMessage) (k : Prog A) :
    net_only k -> net_only (Destroy response k)
| NetHttpGet (uri : string) (k : GetOutcome -> Prog A) :
    (forall o, net_only (k o)) -> net_only (HttpGet uri k)
| NetReadBody (response : IncomingMessage) (k : Result string -> Prog A) :
    (forall r, net_only (k r)) -> net_only (ReadBody response k).

(** The first entry of the fault script: the value, if any, that the next
    operation on the settings store rejects with. *)
Definition next_store_error (w : World) : option Thrown := hd None (faults w).

Definition got_latest_log (u : Update) : Event :=
  EvLog LDebug "got latest version" [("latest", version u)].

Definition failed_log (message : JsVal) : Event :=
  EvLog LError "Failed to get latest version" [("error", message)].

(** The [TypeError] that the [catch] block of [_getUpdate] raises on
    [null] and [undefined]. *)
Definition catch_type_error : JsError :=
  newTypeError "Cannot read property 'message' of null".

(** What the [catch] block makes of the outcome of the [try] block. *)
Definition caught (now : Z) (r : Result Update * World) : Result Update * World :=
  match r with
  | (Ok u, w) => (Ok u, w)
  | (Err ThrownNullish, w) => (Err catch_type_error, w)
  | (Err (ThrownValue _ message), w) =>
      (Ok (fallback now), emit (failed_log message) w)
  end.

(** The end of the [try] block, after the [if]: the debug line. *)
Definition logged (r : Result Update * World) : Result Update * World :=
  match r with
  | (Ok u, w) => (Ok u, emit (got_latest_log u) w)
  | (Err e, w) => (Err e, w)
  end.

(** Whether a check goes to the network: when forced; otherwise when the
    read succeeds and finds no record, or one older than the interval. *)
Definition will_fetch (force : bool) (w : World) : bool :=
  if force then true
  else
    match next_store_error w with
    | Some _ => false
    | None =>
        match update (store w) with
        | None => true
        | Some record => checked record + updateInterval <? clock w
        end
    end.

(** What the fault script holds for the call of [write] of a check: its
    first entry for a forced check, its second for an unforced one, which
    has read the settings before. *)
Definition write_rejection (force : bool) (w : World) : option Thrown :=
  hd None (skipn (if force then 0 else 1)%nat (faults w)).

Section CheckVocabulary.
Context {platform : Platform}.
Variable this : UpdateHttpProvider.

(** What a check does to the world, in every case. *)
Definition check_summary (force : bool) (w : World) : Prop :=
  let now := clock w in
  let attempt := run (_getUpdate_try this force now) w in
  let final := run (_getUpdate this force) w in
  exists t,
    extends w (snd final) t
    /\ reads t = (if force then 0 else 1)%nat
    /\ (if will_fetch force w
        then exists more, gets t = latestUrl this :: more
        else gets t = [])
    /\ fst final = fst (caught now attempt)
    /\ match fst attempt with
       | Err e =>
           store (snd final) = store w
           /\ (writes t = [] \/
               ((exists u, writes t = [mkSettings (Some u)] /\ checked u = now)
                /\ write_rejection force w = Some e
                /\ exists more, gets t = latestUrl this :: more))
       | Ok u =>
           if will_fetch force w
           then writes t = [mkSettings (Some u)]
                /\ store (snd final) = mkSettings (Some u)
                /\ checked u = now
           else writes t = [] /\ store (snd final) = store w
                /\ update (store w) = Some u
       end.

End CheckVocabulary.

(** A program stopped at an await, or finished. *)
Definition suspended {A : Type} (p : Prog A) : Prop :=
  match p with
  | DateNow _ | Log _ _ _ _ | Destroy _ _ => False
  | _ => True
  end.



(** The invariant of the event loop: at most one check is in flight, and
    [this.update] names it, stopped at an await; when [this.update] names
    a promise and no check is in flight, that promise is one that was
    rejected. *)
Definition single_flight (s : Loop.Process) : Prop :=
  match Loop.this_update s with
  | None => Loop.in_flight (Loop.promises s) = []
  | Some p =>
      (Loop.in_flight (Loop.promises s) = [p]
       /\ exists check,
            Loop.lookup p (Loop.promises s) = Some (Loop.Pending check)
            /\ suspended check)
      \/ (Loop.in_flight (Loop.promises s) = []
          /\ exists e, Loop.lookup p (Loop.promises s) = Some (Loop.Settled (Err e)))
  end.


Section LoopVocabulary.
Context {platform : Platform}.
Variable this : UpdateHttpProvider.


End LoopVocabulary.

(** A program that issues at most [n] GET requests, whatever it is
    answered. *)
Inductive gets_at_most {A : Type} : nat -> Prog A -> Prop :=
| GetsRet (n : nat) (a : A) : gets_at_most n (Ret a)
| GetsThrow (n : nat) (e : Thrown) : gets_at_most n (Throw e)
| GetsDateNow (n : nat) (k : Z -> Prog A) :
    (forall now, gets_at_most n (k now)) -> gets_at_most n (DateNow k)
| GetsLog (n : nat) (lvl : Level) (msg : string) (fields : list (string * JsVal))
    (k : Prog A) :
    gets_at_most n k -> gets_at_most n (Log lvl msg fields k)
| GetsDestroy (n : nat) (response : IncomingMessage) (k : Prog A) :
    gets_at_most n k -> gets_at_most n (Destroy response k)
| GetsSettingsRead (n : nat) (k : Result Settings -> Prog A) :
    (forall r, gets_at_most n (k r)) -> gets_at_most n (SettingsRead k)
| GetsSettingsWrite (n : nat) (s : Settings) (k : Result unit -> Prog A) :
    (forall r, gets_at_most n (k r)) -> gets_at_most n (SettingsWrite s k)
| GetsHttpGet (n : nat) (uri : string) (k : GetOutcome -> Prog A) :
    (forall o, gets_at_most n (k o)) -> gets_at_most (S n) (HttpGet uri k)
| GetsReadBody (n : nat) (response : IncomingMessage) (k : Result string -> Prog A) :
    (forall r, gets_at_most n (k r)) -> gets_at_most n (ReadBody response k).

(** The world [ms] milliseconds later. *)
Definition later (ms : Z) (w : World) : World :=
  mkWorld (clock w + ms) (store w) (network w) (faults w) (trace w).

(** A response that [requestResponse] resolves with. *)
Definition accepted (response : IncomingMessage) : Prop :=
  is_redirect response = false /\ is_bad_status response = false.

(** A program that does not read the clock. *)
Inductive clock_free {A : Type} : Prog A -> Prop :=
| FreeRet (a : A) : clock_free (Ret a)
| FreeThrow (e : Thrown) : clock_free (Throw e)
| FreeLog (lvl : Level) (msg : string) (fields : list (string * JsVal)) (k : Prog A) :
    clock_free k -> clock_free (Log lvl msg fields k)
| FreeDestroy (response : IncomingMessage) (k : Prog A) :
    clock_free k -> clock_free (Destroy response k)
| FreeSettingsRead (k : Result Settings -> Prog A) :
    (forall r, clock_free (k r)) -> clock_free (SettingsRead k)
| FreeSettingsWrite (s : Settings) (k : Result unit -> Prog A) :
    (forall r, clock_free (k r)) -> clock_free (SettingsWrite s k)
| FreeHttpGet (uri : string) (k : GetOutcome -> Prog A) :
    (forall o, clock_free (k o)) -> clock_free (HttpGet uri k)
| FreeReadBody (response : IncomingMessage) (k : Result string -> Prog A) :
    (forall r, clock_free (k r)) -> clock_free (ReadBody response k).

(** The checks in flight do not read the clock. *)
Definition clock_is_read_once (s : Loop.Process) : Prop :=
  forall p check,
    Loop.lookup p (Loop.promises s) = Some (Loop.Pending check) -> clock_free check.

(** The responses destroyed, in order. *)
Fixpoint destroyed (t : list Event) : list IncomingMessage :=
  match t with
  | [] => []
  | EvDestroy response :: t => response :: destroyed t
  | _ :: t => destroyed t
  end.

(** The responses whose body was read, in order. *)
Fixpoint bodies (t : list Event) : list IncomingMessage :=
  match t with
  | [] => []
  | EvBody response :: t => response :: bodies t
  | _ :: t => bodies t
  end.

(** The surface: what [isLatestVersion] logs and answers, and the
    process after a check. *)
Section SurfaceVocabulary.
Context {platform : Platform}.
Variable this : UpdateHttpProvider.

Definition comparing_log (latest : Update) : Event :=
  EvLog LDebug "comparing versions"
    [("current", JsString (currentVersion this)); ("latest", version latest)].

(** What [isLatestVersion] answers. *)
Definition verdict (latest : Update) : bool :=
  if strict_equal (version latest) (currentVersion this) then true
  else match semver_lt (version latest) (currentVersion this) with
       | Ok b => b
       | Err _ => true
       end.

(** The process once a check started in [s], where none is in flight,
    has run to its end: its promise is settled, and [this.update] is clear
    if the check returned a record, and still names the promise if the
    check was rejected. *)
Definition checked_process (force : bool) (s : Loop.Process) : Loop.Process :=
  let check := run (_getUpdate this force) (Loop.world s) in
  Loop.mkProcess (snd check)
    (match fst check with Ok _ => None | Err _ => Some (Loop.next_promise s) end)
    ((Loop.next_promise s, Loop.Settled (fst check)) :: Loop.promises s)
    (S (Loop.next_promise s)).

(** The same process after a call of [isLatestVersion]. *)
Definition compared (latest : Update) (s : Loop.Process) : Loop.Process :=
  Loop.mkProcess (emit (comparing_log latest) (Loop.world s))
    (Loop.this_update s) (Loop.promises s) (Loop.next_promise s).

End SurfaceVocabulary.

(** An admitted request for [/check]: authenticated, of an allowed
    method, at the root. *)
Definition admitted_check (guards : Http.Guards) (route : Http.Route)
  (request : Http.Request) : Prop :=
  Http.ensureAuthenticated guards request = None
  /\ Http.ensureMethod guards request = None
  /\ Http.isRoot guards route = true
  /\ Http.base route = "/check".

(** The plugins activated, in order. *)
Fixpoint activated (effects : list Plugin.Effect) : list string :=
  match effects with
  | [] => []
  | Plugin.Activated dir :: rest => dir :: activated rest
  | Plugin.Logged _ _ _ :: rest => activated rest
  end.





(** A directory entry that is a plugin: a directory whose module loads
    and whose [activate] returns. *)
Definition is_plugin (env : Plugin.Env) (file : Plugin.Dirent) : bool :=
  Plugin.isDirectory file
  && match Plugin.require env
             (Plugin.path_join env (Plugin.pluginDir env) (Plugin.name file)) with
     | inr (Plugin.Activate None) => true
     | _ => false
     end.

(** ** Concrete inputs *)

(** A world at time 0, with nothing stored, that serves [net]. *)
Definition world_of (net : list GetOutcome) : World :=
  mkWorld 0 (mkSettings None) net [] [].

Definition moved_permanently : IncomingMessage := mkResponse (Some 301) None [] None.

Definition not_found : IncomingMessage := mkResponse (Some 404) None [] None.

Definition a_provider : UpdateHttpProvider :=
  mkProvider true "https://api.github.com/repos/cdr/code-server/releases/latest" "1.2.0".

Definition stored_record : Update := mkUpdate 0 (JsString "1.2.0").

(** A store holding a record checked exactly [updateInterval] ago. *)
Definition boundary_world : World :=
  mkWorld updateInterval (mkSettings (Some stored_record)) [] [] [].

Definition disabled_provider : UpdateHttpProvider :=
  mkProvider false "https://api.github.com/repos/cdr/code-server/releases/latest" "1.2.0".

(** A 200 response whose body is the release payload for [name]. *)
Definition release (name : string) : IncomingMessage :=
  mkResponse (Some 200) None [Concrete.release_payload name] None.

(** A world with nothing stored, in which the release 1.3.0 is served. *)
Definition release_world : World :=
  mkWorld 1000 (mkSettings None) [Responded (release "1.3.0")] [] [].

(** A base class that serves a page with the two placeholders. *)
Definition a_base : HttpProvider :=
  mkBase "/" (fun _ _ => Ok "{{UPDATE_STATUS}}{{ERROR}}") (fun page => page).

(** A redirect to [target]. *)
Definition found (target : string) : IncomingMessage :=
  mkResponse (Some 302) (Some target) [] None.


(** A store holding [stored_record], read [age] milliseconds after the
    record was checked, while the release 1.3.0 is served. *)
Definition aged_world (age : Z) : World :=
  mkWorld (checked stored_record + age) (mkSettings (Some stored_record))
    [Responded (release "1.3.0")] [] [].

(** The same store, two days later, with the network down. *)
Definition offline_world : World :=
  mkWorld (2 * updateInterval) (mkSettings (Some stored_record))
    [TransportError connection_refused] [] [].

(** A plugins directory with a plugin that loads, a plain file, a
    directory that is no module, and a plugin whose [activate] throws
    [null]. *)
Definition plugins_env : Plugin.Env :=
  Plugin.mkEnv "/plugins"
    (inr [Plugin.mkDirent "good" true; Plugin.mkDirent "README" false;
          Plugin.mkDirent "empty" true; Plugin.mkDirent "bad" true])
    (fun dir name => dir ++ "/" ++ name)
    (fun path => last (Semver.split_on "/"%char path) path)
    (fun path =>
       if String.eqb path "/plugins/good" then inr (Plugin.Activate None)
       else if String.eqb path "/plugins/bad"
       then inr (Plugin.Activate (Some ThrownNullish))
       else inl (ThrownValue (Some "MODULE_NOT_FOUND")
                   (JsString "Cannot find module"))).

(** Guards that let every request through. *)
Definition open_guards : Http.Guards :=
  Http.mkGuards (fun _ => None) (fun _ => None) (fun _ => true).

(** Guards that refuse every request as unauthenticated. *)
Definition closed_guards : Http.Guards :=
  Http.mkGuards (fun _ => Some (Http.HttpError "Unauthorized" (Http.Other 401)))
    (fun _ => None) (fun _ => true).

Definition json_request : Http.Request :=
  Http.mkRequest "GET" [("content-type", "application/json")].

(** The route [/check], with the member [to] of its query. *)
Definition check_route (to : Http.QueryValue) : Http.Route :=
  Http.mkRoute "/check" (Some to).

(** A process in which an unforced check is in flight, the stored
    record being a second old. *)
Definition checking : Loop.Process :=
  snd (Loop.getUpdate (platform := Concrete.platform) a_provider false
         (Loop.init (aged_world 1000))).

(** A world in which the release 1.3.0 is served, and the settings
    provider rejects its first operation with [undefined]. *)
Definition rejecting_store_world : World :=
  mkWorld 1000 (mkSettings None) [Responded (release "1.3.0")] [Some ThrownNullish] [].



(** * Properties *)

(** ** Running programs *)

Lemma hd_in {A : Type} (l : list (option A)) (a : A) :
  hd None l = Some a -> In (Some a) l.
Proof. destruct l as [| x l]; simpl; [discriminate | intros ->; now left]. Qed.

Lemma in_tl {A : Type} (l : list A) (a : A) : In a (tl l) -> In a l.
Proof. destruct l; simpl; auto. Qed.

Lemma run_bind {A B : Type} (p : Prog A) (f : A -> Prog B) (w : World) :
  run (bind p f) w =
  match run p w with
  | (Ok a, w') => run (f a) w'
  | (Err e, w') => (Err e, w')
  end.
Proof.
  revert w.
  induction p as [a | e | k IH | lvl msg fields k IH | response k IH
                 | k IH | s k IH | uri k IH | response k IH];
    intro w; simpl; auto.
  - destruct (answer_read (emit EvRead w)) as [r w']. apply IH.
  - destruct (answer_write s (emit (EvWrite s) w)) as [r w']. apply IH.
  - destruct (answer_get (emit (EvGet uri) w)) as [o w']. apply IH.
Qed.

Lemma run_try_catch {A : Type} (p : Prog A) (handler : Thrown -> Prog A) (w : World) :
  run (try_catch p handler) w =
  match run p w with
  | (Ok a, w') => (Ok a, w')
  | (Err e, w') => run (handler e) w'
  end.
Proof.
  revert w.
  induction p as [a | e | k IH | lvl msg fields k IH | response k IH
                 | k IH | s k IH | uri k IH | response k IH];
    intro w; simpl; auto.
  - destruct (answer_read (emit EvRead w)) as [r w']. apply IH.
  - destruct (answer_write s (emit (EvWrite s) w)) as [r w']. apply IH.
  - destruct (answer_get (emit (EvGet uri) w)) as [o w']. apply IH.
Qed.

Lemma extends_refl (w : World) : extends w w [].
Proof. split; [symmetry; apply app_nil_r | reflexivity]. Qed.

Lemma extends_trans (w1 w2 w3 : World) (t1 t2 : list Event) :
  extends w1 w2 t1 -> extends w2 w3 t2 -> extends w1 w3 (t1 ++ t2)%list.
Proof.
  intros [H1 C1] [H2 C2]. split.
  - rewrite H2, H1. symmetry. apply app_assoc.
  - congruence.
Qed.

Lemma extends_emit (w : World) (e : Event) : extends w (emit e w) [e].
Proof. split; reflexivity. Qed.

Lemma extends_new_events (w w' : World) (t : list Event) :
  extends w w' t -> new_events w w' = t.
Proof.
  intros [H _]. unfold new_events. rewrite H.
  rewrite skipn_app, Nat.sub_diag, skipn_all. reflexivity.
Qed.

Lemma answer_read_extends (w : World) : extends w (snd (answer_read w)) [].
Proof.
  unfold answer_read, next_fault.
  destruct (faults w) as [| [e |] rest]; simpl; apply extends_refl || (split; simpl; auto using app_nil_r).
Qed.

Lemma answer_write_extends (s : Settings) (w : World) :
  extends w (snd (answer_write s w)) [].
Proof.
  unfold answer_write, next_fault.
  destruct (faults w) as [| [e |] rest]; simpl; split; simpl; auto using app_nil_r.
Qed.

Lemma answer_get_extends (w : World) : extends w (snd (answer_get w)) [].
Proof.
  unfold answer_get.
  destruct (network w) as [| o rest]; simpl; split; simpl; auto using app_nil_r.
Qed.

Lemma run_extends {A : Type} (p : Prog A) (w : World) :
  exists t, extends w (snd (run p w)) t.
Proof.
  revert w.
  induction p as [a | e | k IH | lvl msg fields k IH | response k IH
                 | k IH | s k IH | uri k IH | response k IH];
    intro w; simpl.
  - exists []. apply extends_refl.
  - exists []. apply extends_refl.
  - apply IH.
  - destruct (IH (emit (EvLog lvl msg fields) w)) as [t H].
    eexists. eapply extends_trans; [apply extends_emit | exact H].
  - destruct (IH (emit (EvDestroy response) w)) as [t H].
    eexists. eapply extends_trans; [apply extends_emit | exact H].
  - pose proof (answer_read_extends (emit EvRead w)) as Ha.
    destruct (answer_read (emit EvRead w)) as [r w']. simpl in Ha.
    destruct (IH r w') as [t H]. eexists.
    eapply extends_trans; [apply extends_emit |].
    eapply extends_trans; [exact Ha | exact H].
  - pose proof (answer_write_extends s (emit (EvWrite s) w)) as Ha.
    destruct (answer_write s (emit (EvWrite s) w)) as [r w']. simpl in Ha.
    destruct (IH r w') as [t H]. eexists.
    eapply extends_trans; [apply extends_emit |].
    eapply extends_trans; [exact Ha | exact H].
  - pose proof (answer_get_extends (emit (EvGet uri) w)) as Ha.
    destruct (answer_get (emit (EvGet uri) w)) as [r w']. simpl in Ha.
    destruct (IH r w') as [t H]. eexists.
    eapply extends_trans; [apply extends_emit |].
    eapply extends_trans; [exact Ha | exact H].
  - destruct (IH (answer_body response) (emit (EvBody response) w)) as [t H].
    eexists. eapply extends_trans; [apply extends_emit | exact H].
Qed.

Lemma gets_app (t1 t2 : list Event) : gets (t1 ++ t2) = (gets t1 ++ gets t2)%list.
Proof.
  induction t1 as [| e t1 IH]; simpl; auto.
  destruct e; simpl; auto. now rewrite IH.
Qed.

(** ** The fetch client *)

Section FetchFacts.
Context {platform : Platform}.

Lemma run_request_step (budget redirects : nat) (uri : string) (w : World) :
  run (requestResponse_request budget redirects uri) w =
  let w' := requested uri w in
  match fst (answer_get (emit (EvGet uri) (emit (request_log uri) w))) with
  | TransportError e => (Err e, w')
  | Responded response =>
      if is_redirect response then
        if (maxRedirects <? S redirects)%nat then
          (Err (newError "reached max redirects"), w')
        else
          match budget with
          | S budget =>
              run (requestResponse_request budget (S redirects)
                     (url_resolve uri (location_of response)))
                (emit (EvDestroy response) w')
          | O => (Err (newError "redirect budget exhausted"),
                  emit (EvDestroy response) w')
          end
      else if is_bad_status response then
        (Err (newError (status_message uri response)), w')
      else (Ok response, w')
  end.
Proof.
  unfold requested, request_log.
  destruct budget; simpl;
    destruct (answer_get _) as [[response | e] w']; simpl; auto;
    destruct (is_redirect response); auto;
    destruct (maxRedirects <? S redirects)%nat; auto;
    destruct (is_bad_status response); auto.
Qed.

Lemma requested_head (uri : string) (w : World) (o : GetOutcome) (rest : list GetOutcome) :
  network w = o :: rest ->
  fst (answer_get (emit (EvGet uri) (emit (request_log uri) w))) = o
  /\ network (requested uri w) = rest
  /\ store (requested uri w) = store w
  /\ faults (requested uri w) = faults w
  /\ extends w (requested uri w) [request_log uri; EvGet uri].
Proof.
  intro H. unfold requested, answer_get, extends. simpl. rewrite H. simpl.
  repeat split; auto. now rewrite <- app_assoc.
Qed.

Lemma request_budget_irrelevant (b b' redirects : nat) (uri : string) (w : World) :
  (maxRedirects <= b + redirects)%nat -> (maxRedirects <= b' + redirects)%nat ->
  run (requestResponse_request b redirects uri) w =
  run (requestResponse_request b' redirects uri) w.
Proof.
  revert b' redirects uri w.
  induction b as [| b IH]; intros b' redirects uri w Hb Hb';
    rewrite (run_request_step _ redirects), (run_request_step b' redirects);
    cbv zeta;
    destruct (fst (answer_get _)) as [response | e]; auto;
    destruct (is_redirect response); auto;
    destruct (maxRedirects <? S redirects)%nat eqn:Hmax; auto.
  - apply Nat.ltb_ge in Hmax. simpl in Hb. lia.
  - apply Nat.ltb_ge in Hmax. destruct b' as [| b']; [lia |].
    apply IH; lia.
Qed.

Lemma run_request_chain (rs : list IncomingMessage) :
  forall (b redirects : nat) (uri : string) (w : World) (tail : list GetOutcome),
    Forall (fun r => is_redirect r = true) rs ->
    network w = (map Responded rs ++ tail)%list ->
    (redirects + List.length rs <= maxRedirects)%nat ->
    (List.length rs <= b)%nat ->
    exists w' t,
      run (requestResponse_request b redirects uri) w =
      run (requestResponse_request (b - List.length rs) (redirects + List.length rs)
             (follow uri rs)) w'
      /\ network w' = tail /\ store w' = store w /\ faults w' = faults w
      /\ extends w w' t /\ gets t = visited uri rs.
Proof.
  induction rs as [| r rs IH]; intros b redirects uri w tail Hall Hnet Hmax Hb.
  - exists w, []. simpl in *. rewrite Nat.sub_0_r, Nat.add_0_r.
    repeat split; auto. symmetry. apply app_nil_r.
  - inversion Hall as [| ? ? Hr Hrs]; subst. simpl in Hnet, Hmax, Hb.
    destruct (requested_head uri w Hnet) as (Hhead & Hrest & Hstore & Hfaults & Hext).
    destruct b as [| b]; [lia |].
    assert (Hnet' : network (emit (EvDestroy r) (requested uri w))
                    = (map Responded rs ++ tail)%list) by exact Hrest.
    destruct (IH b (S redirects) (url_resolve uri (location_of r))
                (emit (EvDestroy r) (requested uri w)) tail Hrs Hnet')
      as (w' & t & Hrun & Hn & Hs & Hf & He & Hg); [lia | lia |].
    exists w', ([request_log uri; EvGet uri] ++ [EvDestroy r] ++ t)%list.
    rewrite (run_request_step (S b) redirects uri w). cbv zeta. rewrite Hhead, Hr.
    replace (maxRedirects <? S redirects)%nat with false
      by (symmetry; apply Nat.ltb_ge; lia).
    rewrite Hrun. simpl in Hs, Hf.
    repeat split; simpl; try congruence.
    + rewrite Nat.add_succ_r. reflexivity.
    + destruct He as [He _]. rewrite He. simpl.
      destruct Hext as [Hext _]. rewrite Hext. rewrite <- !app_assoc. reflexivity.
    + destruct He as [_ He]. rewrite He. simpl. apply Hext.
Qed.


Lemma ok_status_accepted (response : IncomingMessage) (status : Z) :
  statusCode response = Some status -> 200 <= status < 300 ->
  is_redirect response = false /\ is_bad_status response = false.
Proof.
  intros H Hs. unfold is_redirect, is_bad_status. rewrite H.
  replace (status <? 400) with true by lia.
  replace (300 <=? status) with false by lia.
  replace (status =? 0) with false by lia.
  replace (status <? 200) with false by lia.
  replace (400 <=? status) with false by lia.
  split; reflexivity.
Qed.

End FetchFacts.


Section StatusFacts.
Context {platform : Platform}.

Lemma run_request_first (budget redirects : nat) (uri : string) (w : World) :
  exists t, extends w (snd (run (requestResponse_request budget redirects uri) w))
              ([request_log uri; EvGet uri] ++ t)%list.
Proof.
  pose proof (answer_get_extends (emit (EvGet uri) (emit (request_log uri) w))) as Ha.
  unfold request_log in *.
  destruct budget; simpl;
    destruct (answer_get _) as [o w1]; simpl in Ha;
    match goal with |- exists t, extends _ (snd (run ?p w1)) _ =>
      destruct (run_extends p w1) as [t Ht] end;
    exists t;
    (eapply (extends_trans (t1 := [_; _])); [| exact Ht]);
    (eapply (extends_trans (t1 := [_; _]) (t2 := [])); [| exact Ha]);
    eapply (extends_trans (t1 := [_]) (t2 := [_])); apply extends_emit.
Qed.

(** C6, as the code has it.  For a response received after the redirects
    [rs], at most 10, at the URI [follow uri rs] they led to: a status in
    [200,300) is accepted; a missing status, and a status below 200 or
    from 400 on, fail with an error that carries the status (500 when
    there is none); a status in [300,400) with a non-empty location header
    is followed, the next request going to the location resolved against
    the URI (unless it is the eleventh redirect, which fails); a status in
    [300,400) without one, 301 included, is accepted as the response. *)
Theorem status_classification (uri : string) (rs : list IncomingMessage)
  (response : IncomingMessage) (rest : list GetOutcome) (w : World)
  (Hchain : Forall (fun r => is_redirect r = true) rs)
  (Hlength : (List.length rs <= 10)%nat)
  (Hnet : network w = (map Responded rs ++ Responded response :: rest)%list) :
  let outcome := fst (run (requestResponse uri) w) in
  let here := follow uri rs in
  (forall status, statusCode response = Some status -> 200 <= status < 300 ->
     outcome = Ok response)
  /\ (statusCode response = None -> outcome = Err (newError (here ++ ": 500")))
  /\ (forall status, statusCode response = Some status ->
        status < 200 \/ 400 <= status ->
        outcome = Err (newError (here ++ ": " ++
                         (if status =? 0 then "500" else number_to_string status))))
  /\ (forall status target, statusCode response = Some status ->
        300 <= status < 400 ->
        location response = Some target -> target <> EmptyString ->
        ((List.length rs < 10)%nat ->
         exists more,
           gets (new_events w (snd (run (requestResponse uri) w)))
           = (visited uri rs ++ here :: url_resolve here target :: more)%list)
        /\ (List.length rs = 10%nat ->
            outcome = Err (newError "reached max redirects")))
  /\ (forall status, statusCode response = Some status -> 300 <= status < 400 ->
        truthy_string (location response) = false -> outcome = Ok response).
Proof.
  destruct (@run_request_chain platform rs maxRedirects 0%nat uri w
              (Responded response :: rest) Hchain Hnet)
    as (w' & t & Hrun & Hn & _ & _ & He & Hg);
    [unfold maxRedirects; lia | unfold maxRedirects; lia |].
  destruct (requested_head (follow uri rs) w' Hn) as (Hhead & _ & _ & _ & Hext).
  assert (Hstep := run_request_step (maxRedirects - List.length rs)
                     (0 + List.length rs) (follow uri rs) w').
  cbv zeta in Hstep. rewrite Hhead in Hstep. rewrite <- Hrun in Hstep.
  fold (requestResponse uri) in Hstep. clear Hrun.
  cbv zeta. split; [| split; [| split; [| split]]].
  - intros status Hs Hrange.
    destruct (ok_status_accepted response Hs Hrange) as [Hr Hb].
    rewrite Hstep, Hr, Hb. reflexivity.
  - intro Hs. rewrite Hstep.
    unfold is_redirect, is_bad_status, status_message. rewrite Hs. reflexivity.
  - intros status Hs Hrange. rewrite Hstep.
    unfold is_redirect, is_bad_status, status_message, truthy_number. rewrite Hs.
    destruct (status =? 0) eqn:H0; simpl; [reflexivity |].
    replace ((300 <=? status) && (status <? 400)) with false
      by (symmetry; apply andb_false_iff; lia).
    replace ((status <? 200) || (400 <=? status)) with true
      by (symmetry; apply orb_true_iff; lia).
    reflexivity.
  - intros status target Hs Hrange Hloc Htarget.
    assert (Hred : is_redirect response = true).
    { unfold is_redirect, truthy_string. rewrite Hs, Hloc.
      replace (status =? 0) with false by lia.
      replace (300 <=? status) with true by lia.
      replace (status <? 400) with true by lia.
      destruct (String.eqb_spec target EmptyString) as [-> | _]; [contradiction |].
      reflexivity. }
    rewrite Hstep, Hred. unfold location_of. rewrite Hloc. split.
    + intro Hfew.
      replace (maxRedirects <? S (0 + List.length rs))%nat with false
        by (symmetry; apply Nat.ltb_ge; unfold maxRedirects; simpl; lia).
      destruct (maxRedirects - List.length rs)%nat as [| budget] eqn:Hbudget;
        [unfold maxRedirects in Hbudget; lia |].
      destruct (run_request_first budget (S (0 + List.length rs))
                  (url_resolve (follow uri rs) target)
                  (emit (EvDestroy response) (requested (follow uri rs) w')))
        as [t2 Ht2].
      exists (gets t2).
      rewrite (extends_new_events
                 (extends_trans He
                    (extends_trans Hext (extends_trans (extends_emit _ _) Ht2)))).
      rewrite !gets_app, Hg. reflexivity.
    + intro Hfull.
      replace (maxRedirects <? S (0 + List.length rs))%nat with true
        by (symmetry; apply Nat.ltb_lt; unfold maxRedirects; simpl; lia).
      reflexivity.
  - intros status Hs Hrange Hloc. rewrite Hstep.
    unfold is_redirect, is_bad_status. rewrite Hs, Hloc.
    rewrite andb_false_r.
    replace (status =? 0) with false by lia.
    replace (status <? 200) with false by lia.
    replace (400 <=? status) with false by lia.
    reflexivity.
Qed.
End StatusFacts.

(** C6, as stated, fails: a response with status 301 and no location
    header is not a failure; [requestResponse] resolves with it. *)
Lemma status_301_without_location_accepted :
  fst (run (requestResponse (platform := Concrete.platform) "https://example.com")
         (world_of [Responded moved_permanently]))
  = Ok moved_permanently
  /\ forall e,
      fst (run (requestResponse (platform := Concrete.platform) "https://example.com")
             (world_of [Responded moved_permanently]))
      <> Err e.
Proof. split; [reflexivity | intros e H; discriminate H]. Qed.

(** The classification at a 404 response. *)
Lemma status_classification_witness :
  fst (run (requestResponse (platform := Concrete.platform) "https://example.com")
         (world_of [Responded not_found]))
  = Err (newError "https://example.com: 404").
Proof.
  apply (proj1 (proj2 (proj2
           (@status_classification Concrete.platform "https://example.com" []
              not_found [] (world_of [Responded not_found])
              (Forall_nil _) (Nat.le_0_l 10) eq_refl))))
    with (status := 404); [reflexivity | right; lia].
Defined.

(** ** The check operation *)

Lemma reads_app (t1 t2 : list Event) : reads (t1 ++ t2) = (reads t1 + reads t2)%nat.
Proof.
  induction t1 as [| e t1 IH]; simpl; auto.
  destruct e; simpl; auto.
Qed.

Lemma writes_app (t1 t2 : list Event) : writes (t1 ++ t2) = (writes t1 ++ writes t2)%list.
Proof.
  induction t1 as [| e t1 IH]; simpl; auto.
  destruct e; simpl; auto. now rewrite IH.
Qed.

(** What a run leaves of the world when the program only uses the
    network. *)
Lemma run_net_only {A : Type} (p : Prog A) (Hp : net_only p) :
  forall w, store (snd (run p w)) = store w
            /\ faults (snd (run p w)) = faults w
            /\ exists t, extends w (snd (run p w)) t
                         /\ reads t = O /\ writes t = [].
Proof.
  induction Hp as [a | e | k Hk IH | lvl msg fields k Hk IH | response k Hk IH
                  | uri k Hk IH | response k Hk IH]; intro w; simpl.
  - repeat split; auto. exists []. auto using extends_refl.
  - repeat split; auto. exists []. auto using extends_refl.
  - apply IH.
  - destruct (IH (emit (EvLog lvl msg fields) w)) as (Hs & Hf & t & He & Hr & Hw).
    repeat split; auto. eexists. split.
    + eapply extends_trans; [apply extends_emit | exact He].
    + simpl. auto.
  - destruct (IH (emit (EvDestroy response) w)) as (Hs & Hf & t & He & Hr & Hw).
    repeat split; auto. eexists. split.
    + eapply extends_trans; [apply extends_emit | exact He].
    + simpl. auto.
  - pose proof (answer_get_extends (emit (EvGet uri) w)) as Ha.
    assert (Hsf : store (snd (answer_get (emit (EvGet uri) w))) = store w
                  /\ faults (snd (answer_get (emit (EvGet uri) w))) = faults w).
    { unfold answer_get. simpl. destruct (network w); auto. }
    destruct (answer_get (emit (EvGet uri) w)) as [o w1]. simpl in Ha, Hsf.
    destruct (IH o w1) as (Hs & Hf & t & He & Hr & Hw).
    destruct Hsf as [Hs1 Hf1].
    repeat split; try congruence. eexists. split.
    + eapply extends_trans; [apply extends_emit |].
      eapply extends_trans; [exact Ha | exact He].
    + simpl. auto.
  - destruct (IH (answer_body response) (emit (EvBody response) w))
      as (Hs & Hf & t & He & Hr & Hw).
    repeat split; auto. eexists. split.
    + eapply extends_trans; [apply extends_emit | exact He].
    + simpl. auto.
Qed.

Lemma net_only_bind {A B : Type} (p : Prog A) (f : A -> Prog B) :
  net_only p -> (forall a, net_only (f a)) -> net_only (bind p f).
Proof.
  intros Hp Hf. induction Hp; simpl; try constructor; auto.
Qed.

Lemma answer_read_spec (w : World) :
  let r := answer_read (emit EvRead w) in
  extends w (snd r) [EvRead]
  /\ store (snd r) = store w /\ network (snd r) = network w
  /\ faults (snd r) = tl (faults w)
  /\ match fst r with
     | Ok s => s = store w /\ next_store_error w = None
     | Err e => next_store_error w = Some e
     end.
Proof.
  unfold answer_read, next_fault, next_store_error, extends. simpl.
  destruct (faults w) as [| [e |] rest] eqn:Hf; simpl; rewrite ?Hf; repeat split; auto.
Qed.

Lemma answer_write_spec (s : Settings) (w : World) :
  let r := answer_write s (emit (EvWrite s) w) in
  extends w (snd r) [EvWrite s]
  /\ network (snd r) = network w
  /\ faults (snd r) = tl (faults w)
  /\ match fst r with
     | Ok _ => store (snd r) = s /\ next_store_error w = None
     | Err e => store (snd r) = store w /\ next_store_error w = Some e
     end.
Proof.
  unfold answer_write, next_fault, next_store_error, extends. simpl.
  destruct (faults w) as [| [e |] rest] eqn:Hf; simpl; rewrite ?Hf; repeat split; auto.
Qed.

Section CheckFacts.
Context {platform : Platform}.
Variable this : UpdateHttpProvider.

Lemma request_net_only (budget redirects : nat) (uri : string) :
  net_only (requestResponse_request budget redirects uri).
Proof.
  revert redirects uri.
  induction budget as [| budget IH]; intros redirects uri; simpl;
    constructor; constructor; intros [response | e]; try constructor;
    destruct (is_redirect response); try (destruct (is_bad_status response); constructor);
    destruct (maxRedirects <? S redirects)%nat; constructor; auto; constructor.
Qed.

Lemma request_method_net_only (uri : string) : net_only (request uri).
Proof.
  unfold request. apply net_only_bind; [apply request_net_only |].
  intro response. constructor. intros [b | e]; constructor.
Qed.

Lemma run_getUpdate (force : bool) (w : World) :
  run (_getUpdate this force) w
  = caught (clock w) (run (_getUpdate_try this force (clock w)) w).
Proof.
  unfold _getUpdate, date_now. simpl. rewrite run_try_catch.
  destruct (run _ w) as [[u | [| c m]] w']; reflexivity.
Qed.

(** The request of [fetch_update] comes first, and is to [latestUrl]. *)
Lemma run_request_method (uri : string) (w : World) :
  store (snd (run (request uri) w)) = store w
  /\ faults (snd (run (request uri) w)) = faults w
  /\ exists t more, extends w (snd (run (request uri) w)) t
                    /\ reads t = O /\ writes t = [] /\ gets t = uri :: more.
Proof.
  destruct (run_net_only (request_method_net_only uri) w) as (Hs & Hf & t & He & Hr & Hw).
  repeat split; auto.
  assert (Hfirst : exists t', extends w (snd (run (request uri) w))
                                 ([request_log uri; EvGet uri] ++ t')%list).
  { unfold request. rewrite run_bind.
    destruct (run_request_first maxRedirects 0 uri w) as [t1 H1].
    fold (requestResponse uri) in H1.
    destruct (run (requestResponse uri) w) as [[response | e] w1]; simpl in H1.
    - destruct (run_extends (ReadBody response settle) w1) as [t2 H2].
      exists (t1 ++ t2)%list. rewrite app_assoc.
      eapply extends_trans; [exact H1 | exact H2].
    - exists t1. exact H1. }
  destruct Hfirst as [t' Ht'].
  assert (t = ([request_log uri; EvGet uri] ++ t')%list).
  { rewrite <- (extends_new_events He). apply (extends_new_events Ht'). }
  subst t. exists ([request_log uri; EvGet uri] ++ t')%list, (gets t').
  split; [exact He |]. split; [exact Hr |]. split; [exact Hw | reflexivity].
Qed.

(** What [fetch_update] does: one request, to [latestUrl], comes first;
    no read; on success one write, of the record it returns, which the
    store then holds; on failure the store is as before, and a write was
    issued only if the failure is the store's rejection of that write. *)
Lemma run_fetch_update (now : Z) (w : World) :
  let r := run (fetch_update this now) w in
  exists t more,
    extends w (snd r) t /\ reads t = O /\ gets t = latestUrl this :: more
    /\ match fst r with
       | Ok u =>
           checked u = now /\ writes t = [mkSettings (Some u)]
           /\ store (snd r) = mkSettings (Some u)
       | Err e =>
           store (snd r) = store w
           /\ (writes t = [] \/
               ((exists u, writes t = [mkSettings (Some u)] /\ checked u = now)
                /\ next_store_error w = Some e))
       end.
Proof.
  cbv zeta. unfold fetch_update. rewrite run_bind.
  destruct (run_request_method (latestUrl this) w)
    as (Hs & Hf & t & more & He & Hr & Hw & Hg).
  destruct (run (request (latestUrl this)) w) as [[buffer | e] w1]; simpl in *.
  2:{ exists t, more. split; [exact He |]. repeat split; auto. }
  destruct (JSON_parse buffer) as [data | e]; simpl.
  2:{ exists t, more. split; [exact He |]. repeat split; auto. }
  destruct (get_name data) as [name | e]; simpl.
  2:{ exists t, more. split; [exact He |]. repeat split; auto. }
  set (u := mkUpdate now name).
  destruct (answer_write_spec (mkSettings (Some u)) w1) as (He2 & _ & _ & Hres).
  destruct (answer_write (mkSettings (Some u)) (emit (EvWrite (mkSettings (Some u))) w1))
    as [[[] | e] w2]; simpl in *.
  - exists (t ++ [EvWrite (mkSettings (Some u))])%list, more.
    split; [eapply extends_trans; eauto |].
    rewrite reads_app, gets_app, writes_app, Hr, Hg, Hw. simpl.
    rewrite app_nil_r. destruct Hres as [Hst _]. repeat split; auto.
  - exists (t ++ [EvWrite (mkSettings (Some u))])%list, more.
    split; [eapply extends_trans; eauto |].
    rewrite reads_app, gets_app, writes_app, Hr, Hg, Hw. simpl.
    rewrite app_nil_r. destruct Hres as [Hst Hfault].
    repeat split; auto; try congruence.
    right. split; [exists u; split; reflexivity |].
    unfold next_store_error in *. congruence.
Qed.
End CheckFacts.

Section CheckSummary.
Context {platform : Platform}.
Variable this : UpdateHttpProvider.

Lemma run_try_forced (now : Z) (w : World) :
  run (_getUpdate_try this true now) w = logged (run (fetch_update this now) w).
Proof.
  unfold _getUpdate_try. cbn [negb]. rewrite run_bind. cbn [run update].
  rewrite run_bind.
  destruct (run (fetch_update this now) w) as [[u | e] w1]; reflexivity.
Qed.

Lemma run_try_unforced (now : Z) (w : World) :
  run (_getUpdate_try this false now) w =
  let r := answer_read (emit EvRead w) in
  match fst r with
  | Err e => (Err e, snd r)
  | Ok settings =>
      match update settings with
      | None => logged (run (fetch_update this now) (snd r))
      | Some record =>
          if checked record + updateInterval <? now
          then logged (run (fetch_update this now) (snd r))
          else (Ok record, emit (got_latest_log record) (snd r))
      end
  end.
Proof.
  unfold _getUpdate_try, settings_read. cbn [negb]. rewrite run_bind. cbn [run].
  destruct (answer_read (emit EvRead w)) as [[settings | e] w0]; cbn [settle run fst snd]; auto.
  rewrite run_bind.
  destruct (update settings) as [record |].
  - destruct (checked record + updateInterval <? now).
    + destruct (run (fetch_update this now) w0) as [[u | e] w1]; reflexivity.
    + reflexivity.
  - destruct (run (fetch_update this now) w0) as [[u | e] w1]; reflexivity.
Qed.

Lemma caught_extends (now : Z) (r : Result Update * World) :
  exists t, extends (snd r) (snd (caught now r)) t
            /\ reads t = O /\ writes t = [] /\ gets t = []
            /\ store (snd (caught now r)) = store (snd r).
Proof.
  destruct r as [[u | [| c m]] w]; cbn [caught snd].
  - exists []. split; [apply extends_refl | auto].
  - exists []. split; [apply extends_refl | auto].
  - exists [failed_log m]. split; [apply extends_emit | auto].
Qed.

Lemma after_fetch (now : Z) (w0 w : World) (t0 : list Event) (n : nat) :
  extends w w0 t0 -> reads t0 = n -> writes t0 = [] -> gets t0 = [] ->
  store w0 = store w ->
  forall P : Thrown -> Prop,
  (forall e, next_store_error w0 = Some e -> P e) ->
  let r := logged (run (fetch_update this now) w0) in
  let final := caught now r in
  exists t,
    extends w (snd final) t /\ reads t = n
    /\ (exists more, gets t = latestUrl this :: more)
    /\ match fst r with
       | Err e =>
           store (snd final) = store w
           /\ (writes t = [] \/
               ((exists u, writes t = [mkSettings (Some u)] /\ checked u = now) /\ P e))
       | Ok u =>
           writes t = [mkSettings (Some u)]
           /\ store (snd final) = mkSettings (Some u)
           /\ checked u = now
       end.
Proof.
  intros He0 Hr0 Hw0 Hg0 Hs0 P Hfault. cbv zeta.
  destruct (run_fetch_update this now w0) as (t & more & He & Hr & Hg & Hres).
  destruct (caught_extends now (logged (run (fetch_update this now) w0)))
    as (tc & Hec & Hrc & Hwc & Hgc & Hsc).
  destruct (run (fetch_update this now) w0) as [[u | e] w1]; cbn [logged fst snd] in *.
  - destruct Hres as (Hc & Hw & Hst).
    exists (t0 ++ t ++ [got_latest_log u])%list.
    split; [eapply extends_trans; [exact He0 |];
            eapply extends_trans; [exact He | apply extends_emit] |].
    rewrite !reads_app, !writes_app, !gets_app, Hr0, Hw0, Hg0, Hr, Hw, Hg. simpl.
    split; [lia |]. split; [eauto |]. repeat split; auto.
  - destruct Hres as (Hst & Hw).
    exists (t0 ++ t ++ tc)%list.
    split; [eapply extends_trans; [exact He0 |];
            eapply extends_trans; [exact He | exact Hec] |].
    rewrite !reads_app, !writes_app, !gets_app, Hr0, Hw0, Hg0, Hr, Hg, Hrc, Hwc, Hgc.
    cbn [app]. rewrite !app_nil_r.
    split; [lia |]. split; [eauto |]. split; [congruence |].
    destruct Hw as [Hw | [Hw Hf]]; [left | right]; auto.
Qed.

Lemma check_summary_holds (force : bool) (w : World) : check_summary this force w.
Proof.
  unfold check_summary, will_fetch. cbv zeta. rewrite run_getUpdate.
  assert (Hgo : forall w0 t0 n,
    extends w w0 t0 -> reads t0 = n -> writes t0 = [] -> gets t0 = [] ->
    store w0 = store w ->
    (forall e, next_store_error w0 = Some e -> write_rejection force w = Some e) ->
    let attempt := logged (run (fetch_update this (clock w)) w0) in
    exists t,
      extends w (snd (caught (clock w) attempt)) t
      /\ reads t = n
      /\ (exists more, gets t = latestUrl this :: more)
      /\ fst (caught (clock w) attempt) = fst (caught (clock w) attempt)
      /\ match fst attempt with
         | Err e =>
             store (snd (caught (clock w) attempt)) = store w
             /\ (writes t = [] \/
                 ((exists u, writes t = [mkSettings (Some u)] /\ checked u = clock w)
                  /\ write_rejection force w = Some e
                  /\ exists more, gets t = latestUrl this :: more))
         | Ok u =>
             writes t = [mkSettings (Some u)]
             /\ store (snd (caught (clock w) attempt)) = mkSettings (Some u)
             /\ checked u = clock w
         end).
  { intros w0 t0 n He0 Hr0 Hw0 Hg0 Hs0 Hfault. cbv zeta.
    destruct (@after_fetch (clock w) w0 w t0 n He0 Hr0 Hw0 Hg0 Hs0
                (fun e => write_rejection force w = Some e) Hfault)
      as (t & He & Hr & Hg & Hres).
    cbv zeta in *. exists t.
    split; [exact He |]. split; [exact Hr |]. split; [exact Hg |].
    split; [reflexivity |].
    destruct (fst (logged (run (fetch_update this (clock w)) w0))) as [u | e];
      [exact Hres |].
    destruct Hres as (Hst & [Hw | [Hw Hrej]]); split; auto. }
  destruct force.
  - rewrite run_try_forced.
    apply (Hgo w [] 0%nat (extends_refl w) eq_refl eq_refl eq_refl eq_refl).
    intros e H. exact H.
  - rewrite run_try_unforced. cbv zeta.
    destruct (answer_read_spec w) as (He0 & Hs0 & _ & Hf0 & Hres0). cbv zeta in *.
    destruct (answer_read (emit EvRead w)) as [[settings | e] w0]; cbn [fst snd] in *.
    + destruct Hres0 as [-> Hnone]. rewrite Hnone.
      assert (Hfault : forall e, next_store_error w0 = Some e ->
                                 write_rejection false w = Some e).
      { intros e H. unfold write_rejection, next_store_error in *. rewrite Hf0 in H.
        destruct (faults w); exact H. }
      pose proof (Hgo w0 [EvRead] 1%nat He0 eq_refl eq_refl eq_refl Hs0 Hfault) as Hfetch.
      cbv zeta in Hfetch.
      destruct (update (store w)) as [record |] eqn:Hrec.
      * destruct (checked record + updateInterval <? clock w).
        -- exact Hfetch.
        -- exists [EvRead; got_latest_log record]. cbn [caught fst snd].
           split; [eapply (extends_trans (t1 := [_]) (t2 := [_])); [exact He0 | apply extends_emit] |].
           repeat split; auto.
      * exact Hfetch.
    + rewrite Hres0.
      destruct (caught_extends (clock w) (Err e, w0)) as (tc & Hec & Hrc & Hwc & Hgc & Hsc).
      cbn [fst snd] in *.
      exists ([EvRead] ++ tc)%list.
      split; [eapply extends_trans; [exact He0 | exact Hec] |].
      rewrite reads_app, writes_app, gets_app, Hrc, Hwc, Hgc. cbn [reads writes gets app Nat.add].
      repeat split; auto. congruence.
Qed.
End CheckSummary.

Section CheckClaims.
Context {platform : Platform}.
Variable this : UpdateHttpProvider.

Lemma cached_record_returned (w : World) (record : Update) :
  next_store_error w = None -> update (store w) = Some record ->
  (checked record + updateInterval <? clock w) = false ->
  fst (run (_getUpdate this false) w) = Ok record.
Proof.
  intros Hread Hstore Hfresh.
  rewrite run_getUpdate, run_try_unforced. cbv zeta.
  destruct (answer_read_spec w) as (_ & _ & _ & _ & Hans). cbv zeta in Hans.
  destruct (answer_read (emit EvRead w)) as [[settings | e] w0]; cbn [fst snd] in *.
  - destruct Hans as [-> _]. rewrite Hstore, Hfresh. reflexivity.
  - congruence.
Qed.

(** C1, as the code has it.  A forced check reads no persisted record and
    performs a fetch, its first request going to [latestUrl].  An unforced
    check whose read succeeds returns a record of age [now - checked] at
    most the interval of 24 hours without any request, and performs a
    fetch exactly when there is no persisted record or the age of the
    record exceeds the interval. *)
Theorem ttl_and_force (w : World) :
  let now := clock w in
  let forced := run (_getUpdate this true) w in
  let unforced := run (_getUpdate this false) w in
  (reads (new_events w (snd forced)) = 0%nat
   /\ exists more, gets (new_events w (snd forced)) = latestUrl this :: more)
  /\ (next_store_error w = None ->
      (forall record, update (store w) = Some record ->
         now - checked record <= updateInterval ->
         fst unforced = Ok record /\ gets (new_events w (snd unforced)) = [])
      /\ ((exists more, gets (new_events w (snd unforced)) = latestUrl this :: more) <->
          (update (store w) = None \/
           exists record, update (store w) = Some record
                          /\ updateInterval < now - checked record))
      /\ (gets (new_events w (snd unforced)) = []
          \/ exists more, gets (new_events w (snd unforced)) = latestUrl this :: more)).
Proof.
  cbv zeta. split.
  - destruct (check_summary_holds this true w) as (t & He & Hr & Hg & _).
    rewrite (extends_new_events He). auto.
  - intro Hread.
    destruct (check_summary_holds this false w) as (t & He & Hr & Hg & _).
    rewrite (extends_new_events He).
    unfold will_fetch in Hg. rewrite Hread in Hg.
    destruct (update (store w)) as [stored |] eqn:Hstore.
    + destruct (checked stored + updateInterval <? clock w) eqn:Hstale.
      * apply Z.ltb_lt in Hstale. split; [| split].
        -- intros record Hrec Hage. inversion Hrec; subst. lia.
        -- split; [intros _ | intros _; exact Hg].
           right. exists stored. split; [reflexivity | lia].
        -- right. exact Hg.
      * split; [| split].
        -- intros record Hrec _. inversion Hrec; subst.
           split; [| exact Hg].
           apply cached_record_returned; assumption.
        -- apply Z.ltb_ge in Hstale. split.
           ++ intros [more Hmore]. rewrite Hg in Hmore. discriminate.
           ++ intros [Hnone | (record & Hrec & Hage)]; [discriminate |].
              inversion Hrec; subst. lia.
        -- left. exact Hg.
    + split; [| split].
      * discriminate.
      * split; [intros _; left; reflexivity | intros _; exact Hg].
      * right. exact Hg.
Qed.

End CheckClaims.


(** One millisecond inside the interval the stored record is served; one
    millisecond past it the release is fetched and stored. *)
Example ttl_respected :
  let check age :=
    run (_getUpdate (platform := Concrete.platform) a_provider false) (aged_world age) in
  fst (check (updateInterval - 1)) = Ok stored_record
  /\ gets (trace (snd (check (updateInterval - 1)))) = []
  /\ fst (check (updateInterval + 1))
     = Ok (mkUpdate (updateInterval + 1) (JsString "1.3.0"))
  /\ gets (trace (snd (check (updateInterval + 1)))) = [latestUrl a_provider]
  /\ store (snd (check (updateInterval + 1)))
     = mkSettings (Some (mkUpdate (updateInterval + 1) (JsString "1.3.0"))).
Proof. repeat split. Qed.

(** With the network down, a forced check yields the fallback record and
    the stored record stays. *)
Example fallback_on_failure :
  let check := run (_getUpdate (platform := Concrete.platform) a_provider true) offline_world in
  fst check = Ok (fallback (2 * updateInterval))
  /\ store (snd check) = mkSettings (Some stored_record)
  /\ writes (trace (snd check)) = [].
Proof. repeat split. Qed.

(** C1, as stated, fails at the boundary: a record whose age is exactly
    the interval is at least as old as the interval, and it is returned
    from the store without any request. *)
Lemma ttl_boundary_no_fetch :
  updateInterval <= clock boundary_world - checked stored_record
  /\ fst (run (_getUpdate (platform := Concrete.platform) a_provider false) boundary_world)
     = Ok stored_record
  /\ gets (new_events boundary_world
            (snd (run (_getUpdate (platform := Concrete.platform) a_provider false)
                    boundary_world))) = [].
Proof. repeat split. vm_compute. discriminate. Qed.

(** ** The event loop: single flight *)





(** Suspending a program at each await and resuming it runs it as [run]
    does. *)
Lemma finish_advance {A : Type} (p : Prog A) :
  forall w, Loop.finish (fst (Loop.advance p w)) (snd (Loop.advance p w)) = run p w.
Proof.
  induction p as [a | e | k IH | lvl msg fields k IH | response k IH
                 | k IH | s k IH | uri k IH | response k IH];
    intro w; simpl; auto.
Qed.


Lemma advance_suspended {A : Type} (p : Prog A) :
  forall w, suspended (fst (Loop.advance p w)).
Proof.
  induction p; intro w; simpl; auto.
Qed.


Section LoopFacts.
Context {platform : Platform}.
Variable this : UpdateHttpProvider.

Lemma single_flight_init (w : World) : single_flight (Loop.init w).
Proof. reflexivity. Qed.

Lemma single_flight_getUpdate (force : bool) (s : Loop.Process) :
  single_flight s -> single_flight (snd (Loop.getUpdate this force s)).
Proof.
  intros Hinv. unfold Loop.getUpdate.
  destruct (negb (enabled this)); [exact Hinv |].
  destruct (Loop.this_update s) as [p |] eqn:Hm; [exact Hinv |].
  unfold single_flight in Hinv. rewrite Hm in Hinv.
  pose proof (advance_suspended (_getUpdate this force) (Loop.world s)) as Hsusp.
  destruct (Loop.advance (_getUpdate this force) (Loop.world s)) as [check w].
  unfold single_flight. cbn [snd Loop.this_update Loop.promises Loop.in_flight Loop.lookup].
  left. rewrite Hinv, Nat.eqb_refl. eauto.
Qed.





End LoopFacts.




Section Drain.
Context {platform : Platform}.
Variable this : UpdateHttpProvider.


End Drain.

Section SingleFlight.
Context {platform : Platform}.
Variable this : UpdateHttpProvider.
Hypothesis Henabled : enabled this = true.

Lemma getUpdate_joins (force : bool) (p : Loop.PromiseId) (s : Loop.Process) :
  Loop.this_update s = Some p -> Loop.getUpdate this force s = (Ok p, s).
Proof.
  intro Hm. unfold Loop.getUpdate. rewrite Henabled, Hm. reflexivity.
Qed.


Lemma getUpdate_starts (force : bool) (s : Loop.Process) :
  Loop.this_update s = None ->
  Loop.getUpdate this force s =
  (Ok (Loop.next_promise s),
   Loop.mkProcess (snd (Loop.advance (_getUpdate this force) (Loop.world s)))
     (Some (Loop.next_promise s))
     ((Loop.next_promise s,
       Loop.Pending (fst (Loop.advance (_getUpdate this force) (Loop.world s))))
        :: Loop.promises s)
     (S (Loop.next_promise s))).
Proof.
  intro Hm. unfold Loop.getUpdate. rewrite Henabled, Hm. cbn [negb].
  destruct (Loop.advance (_getUpdate this force) (Loop.world s)); reflexivity.
Qed.

(** Awaiting the check that a call has just started completes it as
    [run] does. *)
Lemma await_started (force : bool) (s : Loop.Process) :
  Loop.this_update s = None ->
  Loop.await (Loop.next_promise s) (snd (Loop.getUpdate this force s))
  = Some (fst (run (_getUpdate this force) (Loop.world s)),
          checked_process this force s).
Proof.
  intro Hm. rewrite (getUpdate_starts force s Hm). cbn [snd].
  unfold Loop.await. cbn [Loop.promises Loop.lookup Loop.world]. rewrite Nat.eqb_refl.
  rewrite finish_advance. unfold checked_process. cbv zeta.
  destruct (run (_getUpdate this force) (Loop.world s)) as [r w1]. cbn [fst snd].
  cbn [Loop.set_state Loop.promises Loop.next_promise Loop.this_update].
  rewrite Nat.eqb_refl. reflexivity.
Qed.


End SingleFlight.

Section SingleFlightClaim.
Context {platform : Platform}.
Variable this : UpdateHttpProvider.



End SingleFlightClaim.



(** Three calls, the second one forced, while nothing is stored: one
    request is made, and the one promise is fulfilled with the release. *)
Example three_calls_one_request :
  let s :=
    Loop.exec (platform := Concrete.platform) a_provider
      ([Loop.Call false; Loop.Call true; Loop.Call false] ++ repeat (Loop.Io 0%nat) 4)
      (Loop.init release_world) in
  gets (trace (Loop.world s)) = [latestUrl a_provider]
  /\ Loop.lookup 0%nat (Loop.promises s)
     = Some (Loop.Settled (Ok (mkUpdate 1000 (JsString "1.3.0"))))
  /\ Loop.this_update s = None
  /\ store (Loop.world s) = mkSettings (Some (mkUpdate 1000 (JsString "1.3.0"))).
Proof. repeat split. Qed.

Section NeverFails.
Context {platform : Platform}.
Variable this : UpdateHttpProvider.

(** What a check returns, from what its [try] block does. *)
Lemma getUpdate_outcome (force : bool) (w : World) :
  fst (run (_getUpdate this force) w)
  = match fst (run (_getUpdate_try this force (clock w)) w) with
    | Ok u => Ok u
    | Err ThrownNullish => Err catch_type_error
    | Err (ThrownValue _ _) => Ok (fallback (clock w))
    end.
Proof.
  rewrite run_getUpdate.
  destruct (run (_getUpdate_try this force (clock w)) w) as [[u | [| c m]] w'];
    reflexivity.
Qed.




Lemma run_request_accepted (uri : string) (w : World) (response : IncomingMessage)
  (rest : list GetOutcome) :
  network w = Responded response :: rest ->
  is_redirect response = false -> is_bad_status response = false ->
  run (request uri) w = (answer_body response, emit (EvBody response) (requested uri w)).
Proof.
  intros Hnet Hr Hb. destruct (requested_head uri w Hnet) as (Hhead & _).
  unfold request, requestResponse. rewrite run_bind, run_request_step. cbv zeta.
  rewrite Hhead, Hr, Hb. simpl. destruct (answer_body response); reflexivity.
Qed.

Lemma forced_try (w : World) :
  fst (run (_getUpdate_try this true (clock w)) w)
  = fst (run (fetch_update this (clock w)) w).
Proof.
  rewrite run_try_forced.
  destruct (run (fetch_update this (clock w)) w) as [[u | e] w']; reflexivity.
Qed.



End NeverFails.


(** An enabled provider whose store rejects the read with [undefined]:
    the check is rejected. *)
Example getUpdate_fails_on_undefined :
  fst (run (_getUpdate (platform := Concrete.platform) a_provider false)
         rejecting_store_world)
  = Err catch_type_error.
Proof. reflexivity. Qed.


(** ** The comparator and the status surface *)

Section Comparator.
Context {platform : Platform}.
Variable this : UpdateHttpProvider.

Lemma run_isLatestVersion (latest : Update) (w : World) :
  fst (run (isLatestVersion this latest) w) =
  Ok (if strict_equal (version latest) (currentVersion this) then true
      else match semver_lt (version latest) (currentVersion this) with
           | Ok b => b
           | Err _ => true
           end).
Proof.
  unfold isLatestVersion, logger_debug. simpl.
  destruct (strict_equal (version latest) (currentVersion this)); [reflexivity |].
  destruct (semver_lt (version latest) (currentVersion this)); reflexivity.
Qed.

(** What the comparator computes on two versions that parse: equal
    strings, or [latest] strictly below [current]. *)
Lemma isLatestVersion_parsed (latest : string) (checked_at : Z) (w : World)
  (vl vc : SemVer) :
  semver_parse latest = Some vl -> semver_parse (currentVersion this) = Some vc ->
  fst (run (isLatestVersion this (mkUpdate checked_at (JsString latest))) w) =
  Ok (String.eqb latest (currentVersion this)
      || match semver_compare vl vc with Lt => true | _ => false end).
Proof.
  intros Hl Hc. rewrite run_isLatestVersion. simpl. rewrite Hl, Hc.
  destruct (String.eqb latest (currentVersion this)); reflexivity.
Qed.

(** C8.  When the latest or the current version string does not parse as
    a semantic version, [isLatestVersion] returns true; it raises no
    error. *)
Theorem isLatestVersion_fails_open (latest : string) (checked_at : Z) (w : World)
  (Hinvalid : semver_parse latest = None \/ semver_parse (currentVersion this) = None) :
  fst (run (isLatestVersion this (mkUpdate checked_at (JsString latest))) w) = Ok true.
Proof.
  rewrite run_isLatestVersion. simpl.
  destruct (String.eqb latest (currentVersion this)); [reflexivity |].
  destruct (semver_parse latest) as [vl |];
    destruct (semver_parse (currentVersion this)) as [vc |]; try reflexivity.
  destruct Hinvalid; discriminate.
Qed.
End Comparator.

(** The comparator on the versions of the specification. *)
Example isLatestVersion_examples :
  let isLatest current latest :=
    fst (run (isLatestVersion (platform := Concrete.platform)
                (mkProvider true "https://example.com" current)
                (mkUpdate 0 (JsString latest))) (world_of [])) in
  isLatest "1.2.0" "1.2.0" = Ok true
  /\ isLatest "1.2.0" "1.3.0" = Ok false
  /\ isLatest "1.3.0" "1.2.0" = Ok true
  /\ isLatest "1.2.0" "not-a-version" = Ok true.
Proof. repeat split. Qed.

(** The comparator at "not-a-version". *)
Lemma isLatestVersion_fails_open_witness :
  fst (run (isLatestVersion (platform := Concrete.platform) a_provider
              (mkUpdate 0 (JsString "not-a-version"))) (world_of []))
  = Ok true.
Proof.
  apply (@isLatestVersion_fails_open Concrete.platform a_provider).
  left. reflexivity.
Defined.

(** C7 fails on the code.  The running version 1.2.0 and the latest
    version v1.2.0 both parse, and to the same semantic version, so the
    latest is not strictly greater than the current one; yet
    [isLatestVersion] returns false. *)
Theorem isLatestVersion_same_version_other_spelling :
  semver_parse (Platform := Concrete.platform) "v1.2.0"
  = Some (Semver.mkSemVer 1 2 0 [] [])
  /\ semver_parse (Platform := Concrete.platform) (currentVersion a_provider)
     = Some (Semver.mkSemVer 1 2 0 [] [])
  /\ Semver.compare (Semver.mkSemVer 1 2 0 [] []) (Semver.mkSemVer 1 2 0 [] []) = Eq
  /\ fst (run (isLatestVersion (platform := Concrete.platform) a_provider
                 (mkUpdate 0 (JsString "v1.2.0"))) (world_of []))
     = Ok false.
Proof. repeat split. Qed.

Section Disabled.
Context {platform : Platform}.
Variable this : UpdateHttpProvider.
Variable base : HttpProvider.

(** C9.  With updates disabled, the JSON status query answers
    [{ isLatest: true }] and leaves the process, its world included (trace,
    store, network), as it was; and [getUpdate], forced or not, is
    rejected with the error "updates are not enabled", the process again
    left as it was. *)
Theorem disabled_short_circuits (Hdisabled : enabled this = false) :
  (forall errorOrUpdate s,
      run_task this (getRoot this base true errorOrUpdate) s
      = Some (Ok (mkHttpResponse (JsonStatus None true)), s))
  /\ (forall force s,
        Loop.getUpdate this force s = (Err (newError "updates are not enabled"), s)).
Proof.
  split.
  - intros errorOrUpdate s. unfold getRoot. rewrite Hdisabled. reflexivity.
  - intros force s. unfold Loop.getUpdate. rewrite Hdisabled. reflexivity.
Qed.
End Disabled.

(** A forced check on a disabled provider. *)
Lemma disabled_short_circuits_witness :
  enabled disabled_provider = false
  /\ Loop.getUpdate (platform := Concrete.platform) disabled_provider true
       (Loop.init release_world)
     = (Err (newError "updates are not enabled"), Loop.init release_world).
Proof.
  split; [reflexivity |].
  apply (proj2 (@disabled_short_circuits Concrete.platform disabled_provider a_base eq_refl)).
Defined.

(** ** The plugin loader *)










(** One plugin loads, one directory is skipped with a debug line, and the
    [null] a third one throws ends as a warning. *)
Example loadPlugins_example :
  Plugin.loadPlugins plugins_env
  = (Plugin.Resolved,
     [Plugin.Activated "/plugins/good";
      Plugin.Logged LDebug (JsString "Loaded plugin") [("name", JsString "good")];
      Plugin.Logged LDebug (JsString "Cannot find module") [];
      Plugin.Logged LWarn (JsString "Cannot read property 'code' of null") []]).
Proof. reflexivity. Qed.

(** ** The number of requests of a check *)

Lemma gets_at_most_more {A : Type} (p : Prog A) (n : nat) :
  gets_at_most n p -> forall m, (n <= m)%nat -> gets_at_most m p.
Proof.
  induction 1; intros m Hm; try (constructor; auto; fail).
  destruct m as [| m]; [lia |]. constructor. intro o. apply H0. lia.
Qed.

Lemma gets_at_most_bind {A B : Type} (p : Prog A) (f : A -> Prog B) (n m : nat) :
  gets_at_most n p -> (forall a, gets_at_most m (f a)) ->
  gets_at_most (n + m) (bind p f).
Proof.
  intros Hp Hf. induction Hp; simpl; try (constructor; auto; fail).
  - apply gets_at_most_more with (n := m); [apply Hf | lia].
Qed.

Lemma gets_at_most_try_catch {A : Type} (p : Prog A) (handler : Thrown -> Prog A)
  (n : nat) :
  gets_at_most n p -> (forall e, gets_at_most O (handler e)) ->
  gets_at_most n (try_catch p handler).
Proof.
  intros Hp Hh. induction Hp; simpl; try (constructor; auto; fail).
  apply gets_at_most_more with (n := O); [apply Hh | lia].
Qed.

Lemma run_gets_at_most {A : Type} (p : Prog A) (n : nat) (Hp : gets_at_most n p) :
  forall w, exists t, extends w (snd (run p w)) t /\ (List.length (gets t) <= n)%nat.
Proof.
  induction Hp as [n a | n e | n k Hk IH | n lvl msg fields k Hk IH
                  | n response k Hk IH | n k Hk IH | n s k Hk IH
                  | n uri k Hk IH | n response k Hk IH]; intro w; simpl.
  - exists []. split; [apply extends_refl | simpl; lia].
  - exists []. split; [apply extends_refl | simpl; lia].
  - apply IH.
  - destruct (IH (emit (EvLog lvl msg fields) w)) as (t & He & Hl).
    eexists. split; [eapply extends_trans; [apply extends_emit | exact He] |].
    simpl. exact Hl.
  - destruct (IH (emit (EvDestroy response) w)) as (t & He & Hl).
    eexists. split; [eapply extends_trans; [apply extends_emit | exact He] |].
    simpl. exact Hl.
  - pose proof (answer_read_extends (emit EvRead w)) as Ha.
    destruct (answer_read (emit EvRead w)) as [r w1]. simpl in Ha.
    destruct (IH r w1) as (t & He & Hl).
    eexists. split.
    + eapply extends_trans; [apply extends_emit |].
      eapply extends_trans; [exact Ha | exact He].
    + simpl. exact Hl.
  - pose proof (answer_write_extends s (emit (EvWrite s) w)) as Ha.
    destruct (answer_write s (emit (EvWrite s) w)) as [r w1]. simpl in Ha.
    destruct (IH r w1) as (t & He & Hl).
    eexists. split.
    + eapply extends_trans; [apply extends_emit |].
      eapply extends_trans; [exact Ha | exact He].
    + simpl. exact Hl.
  - pose proof (answer_get_extends (emit (EvGet uri) w)) as Ha.
    destruct (answer_get (emit (EvGet uri) w)) as [o w1]. simpl in Ha.
    destruct (IH o w1) as (t & He & Hl).
    eexists. split.
    + eapply extends_trans; [apply extends_emit |].
      eapply extends_trans; [exact Ha | exact He].
    + simpl. lia.
  - destruct (IH (answer_body response) (emit (EvBody response) w)) as (t & He & Hl).
    eexists. split; [eapply extends_trans; [apply extends_emit | exact He] |].
    simpl. exact Hl.
Qed.

Section RequestBound.
Context {platform : Platform}.
Variable this : UpdateHttpProvider.

Lemma request_gets_at_most (budget : nat) :
  forall redirects uri, (redirects <= maxRedirects)%nat ->
    gets_at_most (S (maxRedirects - redirects))
      (requestResponse_request budget redirects uri).
Proof.
  induction budget as [| budget IH]; intros redirects uri Hr;
    cbn [requestResponse_request];
    constructor; constructor; intros [response | e]; try constructor;
    destruct (is_redirect response); try (destruct (is_bad_status response); constructor);
    destruct (maxRedirects <? S redirects)%nat eqn:Hmax; constructor; try constructor.
  apply Nat.ltb_ge in Hmax.
  apply gets_at_most_more with (n := S (maxRedirects - S redirects)); [apply IH; lia | lia].
Qed.

Lemma getUpdate_gets_at_most (force : bool) :
  gets_at_most (S maxRedirects) (_getUpdate this force).
Proof.
  unfold _getUpdate, date_now. simpl. constructor. intro now.
  apply gets_at_most_try_catch;
    [| intros [| c m]; unfold _getUpdate_catch, logger_error; simpl; repeat constructor].
  assert (Hfetch : gets_at_most (S maxRedirects) (fetch_update this now)).
  { unfold fetch_update.
    change (S maxRedirects) with (S maxRedirects + 0)%nat.
    apply gets_at_most_bind.
    - unfold request. change (S maxRedirects) with (S maxRedirects + 0)%nat.
      apply gets_at_most_bind.
      + apply (@request_gets_at_most maxRedirects 0%nat (latestUrl this)). lia.
      + intro response. constructor. intros [b | e]; constructor.
    - intro buffer. destruct (JSON_parse buffer) as [data | e]; simpl; [| constructor].
      destruct (get_name data) as [name | e]; simpl; [| constructor].
      constructor. intros [[] | e]; simpl; constructor. }
  unfold _getUpdate_try.
  change (S maxRedirects) with (0 + (S maxRedirects + 0))%nat.
  apply gets_at_most_bind.
  - destruct (negb force); [| constructor].
    unfold settings_read. constructor. intros [s | e]; constructor.
  - intro settings. apply gets_at_most_bind.
    + destruct (update settings) as [record |]; [| exact Hfetch].
      destruct (checked record + updateInterval <? now); [exact Hfetch | constructor].
    + intro u. unfold logger_debug. simpl. repeat constructor.
Qed.

(** X1.  Whatever the server answers, a check makes at most 11 requests. *)
Theorem check_requests_bounded (force : bool) (w : World) :
  (List.length (gets (new_events w (snd (run (_getUpdate this force) w)))) <= 11)%nat
  /\ (1 <= List.length (gets (new_events w (snd (run (request (latestUrl this)) w))))
      <= 11)%nat.
Proof.
  split.
  - destruct (run_gets_at_most (getUpdate_gets_at_most force) w) as (t & He & Hl).
    rewrite (extends_new_events He). exact Hl.
  - assert (Hreq : gets_at_most (S maxRedirects) (request (latestUrl this))).
    { unfold request. change (S maxRedirects) with (S maxRedirects + 0)%nat.
      apply gets_at_most_bind.
      + apply (@request_gets_at_most maxRedirects 0%nat (latestUrl this)). lia.
      + intro response. constructor. intros [b | e]; constructor. }
    destruct (run_gets_at_most Hreq w) as (t & He & Hl).
    destruct (run_request_method (latestUrl this) w) as (_ & _ & t' & more & He' & _ & _ & Hg).
    rewrite (extends_new_events He).
    assert (t = t') by (rewrite <- (extends_new_events He); apply (extends_new_events He')).
    subst t'. split; [rewrite Hg; simpl; lia | exact Hl].
Qed.
End RequestBound.

(** ** Failures of the fetch *)

Section FetchFailures.
Context {platform : Platform}.
Variable this : UpdateHttpProvider.

Lemma run_request_after_redirects (uri : string) (rs : list IncomingMessage)
  (tail : list GetOutcome) (w : World) :
  Forall (fun r => is_redirect r = true) rs -> (List.length rs <= 10)%nat ->
  network w = (map Responded rs ++ tail)%list ->
  (forall e rest, tail = TransportError e :: rest ->
     fst (run (request uri) w) = Err e)
  /\ (forall final rest, tail = Responded final :: rest -> accepted final ->
        fst (run (request uri) w) = answer_body final).
Proof.
  intros Hchain Hlen Hnet.
  destruct (@run_request_chain platform rs maxRedirects 0%nat uri w tail Hchain Hnet)
    as (w' & t & Hrun & Hn & _); [unfold maxRedirects; lia | unfold maxRedirects; lia |].
  assert (Hstep := run_request_step (maxRedirects - List.length rs)
                     (0 + List.length rs) (follow uri rs) w').
  cbv zeta in Hstep. rewrite <- Hrun in Hstep. fold (requestResponse uri) in Hstep.
  split.
  - intros e rest ->. destruct (requested_head (follow uri rs) w' Hn) as (Hhead & _).
    rewrite Hhead in Hstep. unfold request. rewrite run_bind, Hstep. reflexivity.
  - intros final rest -> [Hr Hb].
    destruct (requested_head (follow uri rs) w' Hn) as (Hhead & _).
    rewrite Hhead, Hr, Hb in Hstep. unfold request. rewrite run_bind, Hstep.
    simpl. destruct (answer_body final); reflexivity.
Qed.

Lemma fetch_update_request_fails (now : Z) (w : World) (e : JsError) :
  fst (run (request (latestUrl this)) w) = Err e ->
  run (fetch_update this now) w = (Err e, snd (run (request (latestUrl this)) w)).
Proof.
  intro H. unfold fetch_update. rewrite run_bind.
  destruct (run (request (latestUrl this)) w) as [[b | e'] w1]; simpl in *;
    [discriminate | congruence].
Qed.

(** X2.  A failure of the fetch itself, a failed request or a failed body
    stream, before or after redirects: a forced check returns the
    fallback, calls [write] not at all, and leaves the store as it was. *)
Theorem fetch_failure_is_fallback (rs : list IncomingMessage)
  (tail : list GetOutcome) (w : World) (e : JsError)
  (Hchain : Forall (fun r => is_redirect r = true) rs)
  (Hlength : (List.length rs <= 10)%nat)
  (Hnet : network w = (map Responded rs ++ tail)%list)
  (Hfails : (exists rest, tail = TransportError e :: rest)
            \/ (exists final rest, tail = Responded final :: rest
                                   /\ accepted final /\ streamError final = Some e)) :
  let final := run (_getUpdate this true) w in
  fst (run (request (latestUrl this)) w) = Err e
  /\ fst final = Ok (fallback (clock w))
  /\ writes (new_events w (snd final)) = []
  /\ store (snd final) = store w.
Proof.
  cbv zeta.
  destruct (@run_request_after_redirects (latestUrl this) rs tail w Hchain Hlength Hnet)
    as [Hte Hbody].
  assert (Hreq : fst (run (request (latestUrl this)) w) = Err e).
  { destruct Hfails as [[rest ->] | (final & rest & -> & Hacc & Hstream)].
    - apply (Hte e rest eq_refl).
    - rewrite (Hbody final rest eq_refl Hacc). unfold answer_body. rewrite Hstream.
      reflexivity. }
  split; [exact Hreq |].
  rewrite run_getUpdate, run_try_forced, (fetch_update_request_fails (clock w) w Hreq).
  cbn [logged caught of_error fst snd].
  destruct (run_request_method (latestUrl this) w) as (Hs & _ & t & more & He & _ & Hw & _).
  split; [reflexivity |]. split.
  - rewrite (extends_new_events (extends_trans He (extends_emit _ _))).
    rewrite writes_app, Hw. reflexivity.
  - simpl. exact Hs.
Qed.
End FetchFailures.

(** A refused connection, with a record in the store. *)
Lemma fetch_failure_is_fallback_witness :
  fst (run (_getUpdate (platform := Concrete.platform) a_provider true) offline_world)
  = Ok (fallback (2 * updateInterval))
  /\ store (snd (run (_getUpdate (platform := Concrete.platform) a_provider true)
                   offline_world))
     = mkSettings (Some stored_record).
Proof.
  destruct (@fetch_failure_is_fallback Concrete.platform a_provider []
              [TransportError connection_refused] offline_world connection_refused
              (Forall_nil _) (Nat.le_0_l 10) eq_refl
              (or_introl (ex_intro _ [] eq_refl)))
    as (_ & Hfinal & _ & Hstore).
  split; [exact Hfinal | exact Hstore].
Defined.

(** ** The record a check returns, and the next check *)

Section CheckRounds.
Context {platform : Platform}.
Variable this : UpdateHttpProvider.

Lemma try_record_is_fresh (force : bool) (w : World) (u : Update) :
  fst (run (_getUpdate_try this force (clock w)) w) = Ok u ->
  clock w - checked u <= updateInterval.
Proof.
  assert (Hi : 0 <= updateInterval) by (unfold updateInterval; lia).
  assert (Hfetch : forall w0,
    fst (logged (run (fetch_update this (clock w)) w0)) = Ok u ->
    clock w - checked u <= updateInterval).
  { intro w0. destruct (run_fetch_update this (clock w) w0) as (t & more & _ & _ & _ & Hres).
    destruct (run (fetch_update this (clock w)) w0) as [[u0 | e] w1]; cbn [logged fst snd] in *.
    - intros [= <-]. destruct Hres as (Hc & _). lia.
    - discriminate. }
  destruct force.
  - rewrite run_try_forced. apply Hfetch.
  - rewrite run_try_unforced. cbv zeta.
    destruct (answer_read (emit EvRead w)) as [[settings | e] w0]; cbn [fst snd].
    + destruct (update settings) as [record |]; [| apply Hfetch].
      destruct (checked record + updateInterval <? clock w) eqn:Hstale; [apply Hfetch |].
      apply Z.ltb_ge in Hstale. intros [= <-]. lia.
    + discriminate.
Qed.

(** X3.  Whatever record a check returns, fetched, served from the store
    or synthesized, is at most the interval old; and a check returns a
    record unless its [try] block fails with [null] or [undefined], in
    which case it is rejected with the [TypeError] of the [catch]
    block. *)
Theorem returned_record_is_fresh (force : bool) (w : World) :
  match fst (run (_getUpdate this force) w) with
  | Ok u => clock w - checked u <= updateInterval
  | Err e =>
      e = catch_type_error
      /\ fst (run (_getUpdate_try this force (clock w)) w) = Err ThrownNullish
  end.
Proof.
  rewrite getUpdate_outcome.
  destruct (fst (run (_getUpdate_try this force (clock w)) w)) as [u | [| c m]] eqn:Htry.
  - apply (try_record_is_fresh force w Htry).
  - split; reflexivity.
  - cbn [fallback checked]. unfold updateInterval. lia.
Qed.

Lemma successful_check_is_stored (force : bool) (w : World) (u : Update) :
  fst (run (_getUpdate_try this force (clock w)) w) = Ok u ->
  update (store (snd (run (_getUpdate this force) w))) = Some u
  /\ clock (snd (run (_getUpdate this force) w)) = clock w.
Proof.
  intro Hok.
  destruct (check_summary_holds this force w) as (t & He & _ & _ & Hres).
  rewrite Hok in Hres. destruct Hres as (_ & Hcase). split; [| apply He].
  destruct (will_fetch force w).
  - destruct Hcase as (_ & -> & _). reflexivity.
  - destruct Hcase as (_ & -> & Hu). exact Hu.
Qed.

Lemma cached_run (w : World) (record : Update) :
  next_store_error w = None -> update (store w) = Some record ->
  (checked record + updateInterval <? clock w) = false ->
  fst (run (_getUpdate this false) w) = Ok record
  /\ new_events w (snd (run (_getUpdate this false) w))
     = [EvRead; got_latest_log record].
Proof.
  intros Hread Hstore Hfresh.
  rewrite run_getUpdate, run_try_unforced. cbv zeta.
  destruct (answer_read_spec w) as (He & _ & _ & _ & Hans). cbv zeta in He, Hans.
  destruct (answer_read (emit EvRead w)) as [[settings | e] w0]; cbn [fst snd] in *.
  - destruct Hans as [-> _]. rewrite Hstore, Hfresh. cbn [fst snd].
    split; [reflexivity |].
    apply extends_new_events.
    apply (extends_trans (t1 := [EvRead]) (t2 := [got_latest_log record]) He).
    apply extends_emit.
  - congruence.
Qed.

(** X4.  The record of a successful check is the one the next unforced check
    returns, without any request or write, as long as its age stays
    within the interval and the store can be read. *)
Theorem stored_record_is_reused (force : bool) (w : World) (u : Update) (ms : Z)
  (Hok : fst (run (_getUpdate_try this force (clock w)) w) = Ok u)
  (Hread : next_store_error (snd (run (_getUpdate this force) w)) = None)
  (Hage : clock w + ms - checked u <= updateInterval) :
  let next := later ms (snd (run (_getUpdate this force) w)) in
  fst (run (_getUpdate this false) next) = Ok u
  /\ gets (new_events next (snd (run (_getUpdate this false) next))) = []
  /\ writes (new_events next (snd (run (_getUpdate this false) next))) = [].
Proof.
  cbv zeta.
  destruct (successful_check_is_stored force w Hok) as [Hstore Hclock].
  set (next := later ms (snd (run (_getUpdate this force) w))).
  assert (Hstore' : update (store next) = Some u) by exact Hstore.
  assert (Hread' : next_store_error next = None) by exact Hread.
  assert (Hfresh : (checked u + updateInterval <? clock next) = false).
  { apply Z.ltb_ge. unfold next, later. cbn [clock]. rewrite Hclock. lia. }
  destruct (cached_run next Hread' Hstore' Hfresh) as [Hret Hevents].
  rewrite Hevents. repeat split; auto.
Qed.
End CheckRounds.

(** A release fetched and stored, and a status query five seconds later. *)
Lemma stored_record_is_reused_witness :
  fst (run (_getUpdate (platform := Concrete.platform) a_provider false)
         (later 5000 (snd (run (_getUpdate (platform := Concrete.platform) a_provider true)
                             release_world))))
  = Ok (mkUpdate 1000 (JsString "1.3.0")).
Proof.
  refine (proj1 (@stored_record_is_reused Concrete.platform a_provider true release_world
                   (mkUpdate 1000 (JsString "1.3.0")) 5000 eq_refl eq_refl _)).
  vm_compute. discriminate.
Defined.

Section Retry.
Context {platform : Platform}.
Variable this : UpdateHttpProvider.


End Retry.


(** ** The payload *)

Section Payload.
Context {platform : Platform}.
Variable this : UpdateHttpProvider.

Lemma fetch_update_parsed (w : World) (response : IncomingMessage)
  (rest : list GetOutcome) (data : JsVal) :
  network w = Responded response :: rest -> accepted response ->
  streamError response = None ->
  JSON_parse (String.concat EmptyString (chunks response)) = Ok data ->
  run (fetch_update this (clock w)) w =
  match get_name data with
  | Ok name =>
      let u := mkUpdate (clock w) name in
      let after := emit (EvBody response) (requested (latestUrl this) w) in
      match answer_write (mkSettings (Some u)) (emit (EvWrite (mkSettings (Some u))) after) with
      | (Ok _, w') => (Ok u, w')
      | (Err e, w') => (Err e, w')
      end
  | Err e => (Err e, emit (EvBody response) (requested (latestUrl this) w))
  end.
Proof.
  intros Hnet [Hr Hb] Hstream Hparse. unfold fetch_update.
  rewrite run_bind, (run_request_accepted (latestUrl this) w Hnet Hr Hb).
  unfold answer_body. rewrite Hstream. cbn [fst snd]. rewrite run_bind, Hparse.
  cbn [settle run]. rewrite run_bind.
  destruct (get_name data) as [name | e]; cbn [settle run]; [| reflexivity].
  rewrite run_bind. unfold settings_write. cbn [run]. cbv zeta.
  destruct (answer_write _ _) as [[[] | e] w2]; reflexivity.
Qed.

(** X6.  The payload is not validated.  Whatever JSON value the release URL
    serves, the check stores what it finds under [name]: a payload that
    is an object, a number, a string or an array without that member
    yields a record whose version is [undefined]; only [null] fails, and
    gives the fallback record.  A record whose version is not a string is
    then reported as no update. *)
Theorem payload_is_not_validated (w : World) (response : IncomingMessage)
  (rest : list GetOutcome) (data : JsVal)
  (Hnet : network w = Responded response :: rest)
  (Haccepted : accepted response)
  (Hstream : streamError response = None)
  (Hparse : JSON_parse (String.concat EmptyString (chunks response)) = Ok data)
  (Hstore : next_store_error w = None) :
  let final := run (_getUpdate this true) w in
  let name := match data with JsObject members => member "name" members | _ => JsUndefined end in
  (if match data with JsNull | JsUndefined => true | _ => false end
   then fst final = Ok (fallback (clock w)) /\ store (snd final) = store w
   else fst final = Ok (mkUpdate (clock w) name)
        /\ store (snd final) = mkSettings (Some (mkUpdate (clock w) name)))
  /\ (forall checked_at v w0,
        (forall s, v <> JsString s) ->
        fst (run (isLatestVersion this (mkUpdate checked_at v)) w0) = Ok true).
Proof.
  cbv zeta. split.
  - rewrite run_getUpdate, run_try_forced.
    rewrite (fetch_update_parsed w Hnet Haccepted Hstream Hparse).
    assert (Hwrite : forall name,
      let u := mkUpdate (clock w) name in
      let after := emit (EvBody response) (requested (latestUrl this) w) in
      exists w', answer_write (mkSettings (Some u)) (emit (EvWrite (mkSettings (Some u))) after)
                 = (Ok tt, w') /\ store w' = mkSettings (Some u)).
    { intro name. cbv zeta.
      set (u := mkUpdate (clock w) name).
      set (after := emit (EvBody response) (requested (latestUrl this) w)).
      destruct (answer_write_spec (mkSettings (Some u)) after) as (_ & _ & _ & Hres).
      cbv zeta in Hres.
      assert (Hsame : next_store_error after = None).
      { unfold next_store_error in *. unfold after. simpl.
        destruct (requested_head (latestUrl this) w Hnet) as (_ & _ & _ & Hf & _).
        rewrite Hf. exact Hstore. }
      destruct (answer_write (mkSettings (Some u)) _) as [[[] | e] w2]; cbn [fst snd] in *.
      - exists w2. split; [reflexivity | apply Hres].
      - destruct Hres as [_ Hsome]. congruence. }
    assert (Hkeep : store (emit (EvBody response) (requested (latestUrl this) w)) = store w).
    { simpl. destruct (requested_head (latestUrl this) w Hnet) as (_ & _ & Hs & _).
      exact Hs. }
    destruct data as [| | b | n | s | items | members]; cbn [get_name];
      try (cbn [logged fst snd]; split; [reflexivity | exact Hkeep]);
      cbv zeta;
      match goal with
      | |- context [mkUpdate (clock w) ?name] =>
          destruct (Hwrite name) as (w' & -> & Hst)
      end; cbn [logged fst snd store emit]; split; auto.
  - intros checked_at v w0 Hv. rewrite run_isLatestVersion. cbn [version].
    destruct v as [| | b | n | s | items | members]; try reflexivity.
    exfalso. apply (Hv s). reflexivity.
Qed.

End Payload.

Lemma payload_is_not_validated_witness :
  fst (run (_getUpdate (platform := Concrete.platform) a_provider true)
         (world_of [Responded (mkResponse (Some 200) None ["{}"] None)]))
  = Ok (mkUpdate 0 JsUndefined).
Proof.
  refine (proj1 (proj1 (@payload_is_not_validated Concrete.platform a_provider
            (world_of [Responded (mkResponse (Some 200) None ["{}"] None)])
            (mkResponse (Some 200) None ["{}"] None) [] (JsObject [])
            eq_refl _ eq_refl eq_refl eq_refl))).
  split; reflexivity.
Defined.

(** ** The response streams *)

Lemma destroyed_app (t1 t2 : list Event) :
  destroyed (t1 ++ t2) = (destroyed t1 ++ destroyed t2)%list.
Proof.
  induction t1 as [| e t1 IH]; simpl; auto. destruct e; simpl; rewrite ?IH; auto.
Qed.

Lemma bodies_app (t1 t2 : list Event) :
  bodies (t1 ++ t2) = (bodies t1 ++ bodies t2)%list.
Proof.
  induction t1 as [| e t1 IH]; simpl; auto. destruct e; simpl; rewrite ?IH; auto.
Qed.

Lemma destroyed_followed {platform : Platform} (rs : list IncomingMessage) :
  forall uri, destroyed (followed uri rs) = rs /\ bodies (followed uri rs) = [].
Proof.
  induction rs as [| r rs IH]; intro uri; [split; reflexivity |].
  cbn [followed destroyed bodies].
  destruct (IH (url_resolve uri (location_of r))) as [-> ->]. split; reflexivity.
Qed.

Section Streams.
Context {platform : Platform}.

Lemma run_request_chain_streams (rs : list IncomingMessage) :
  forall (b redirects : nat) (uri : string) (w : World) (tail : list GetOutcome),
    Forall (fun r => is_redirect r = true) rs ->
    network w = (map Responded rs ++ tail)%list ->
    (redirects + List.length rs <= maxRedirects)%nat ->
    (List.length rs <= b)%nat ->
    exists w',
      run (requestResponse_request b redirects uri) w =
      run (requestResponse_request (b - List.length rs) (redirects + List.length rs)
             (follow uri rs)) w'
      /\ network w' = tail /\ extends w w' (followed uri rs).
Proof.
  induction rs as [| r rs IH]; intros b redirects uri w tail Hall Hnet Hmax Hb.
  - exists w. simpl in *. rewrite Nat.sub_0_r, Nat.add_0_r.
    repeat split; auto. symmetry. apply app_nil_r.
  - inversion Hall as [| ? ? Hr Hrs]; subst. simpl in Hnet, Hmax, Hb.
    destruct (requested_head uri w Hnet) as (Hhead & Hrest & Hstore & Hfaults & Hext).
    destruct b as [| b]; [lia |].
    assert (Hnet' : network (emit (EvDestroy r) (requested uri w))
                    = (map Responded rs ++ tail)%list) by exact Hrest.
    destruct (IH b (S redirects) (url_resolve uri (location_of r))
                (emit (EvDestroy r) (requested uri w)) tail Hrs Hnet')
      as (w' & Hrun & Hn & He); [lia | lia |].
    exists w'.
    rewrite (run_request_step (S b) redirects uri w). cbv zeta. rewrite Hhead, Hr.
    replace (maxRedirects <? S redirects)%nat with false
      by (symmetry; apply Nat.ltb_ge; lia).
    rewrite Hrun.
    split; [simpl; rewrite Nat.add_succ_r; reflexivity |].
    split; [exact Hn |].
    change (followed uri (r :: rs))
      with ([request_log uri; EvGet uri]
            ++ [EvDestroy r] ++ followed (url_resolve uri (location_of r)) rs)%list.
    apply (extends_trans Hext).
    apply (extends_trans (extends_emit (requested uri w) (EvDestroy r)) He).
Qed.

(** X7.  What the client does with the response streams, event by
    event.  Each redirect it follows is requested, then destroyed, and
    only then is the next request made.  After the redirects comes the
    request that is answered by the last response, and then: the reading
    of its body, if the response is accepted; nothing at all, if it is
    rejected for its status, or if it is the redirect that exceeds the
    bound.  So the accepted response is read and never destroyed, and a
    rejected one is neither destroyed nor read. *)
Theorem rejected_response_is_left_open (uri : string) (rs : list IncomingMessage)
  (response : IncomingMessage) (rest : list GetOutcome) (w : World)
  (Hchain : Forall (fun r => is_redirect r = true) rs)
  (Hlength : (List.length rs <= 10)%nat)
  (Hnet : network w = (map Responded rs ++ Responded response :: rest)%list)
  (Hlast : is_redirect response = false \/ List.length rs = 10%nat) :
  let t := new_events w (snd (run (request uri) w)) in
  let last := follow uri rs in
  t = (followed uri rs
       ++ [EvLog LDebug "Making request" [("uri", JsString last)]; EvGet last]
       ++ (if is_redirect response then []
           else if is_bad_status response then [] else [EvBody response]))%list
  /\ destroyed t = rs
  /\ bodies t
     = if is_redirect response then []
       else if is_bad_status response then [] else [response].
Proof.
  cbv zeta.
  assert (Htrace :
    new_events w (snd (run (request uri) w))
    = (followed uri rs
       ++ [request_log (follow uri rs); EvGet (follow uri rs)]
       ++ (if is_redirect response then []
           else if is_bad_status response then [] else [EvBody response]))%list).
  { destruct (@run_request_chain_streams rs maxRedirects 0%nat uri w
                (Responded response :: rest) Hchain Hnet)
      as (w' & Hrun & Hn & He); try (unfold maxRedirects; lia).
    destruct (requested_head (follow uri rs) w' Hn) as (Hhead & Hrest & _ & _ & Hext).
    unfold request, requestResponse. rewrite run_bind, Hrun.
    rewrite run_request_step. cbv zeta. rewrite Hhead.
    pose proof (extends_trans He Hext) as Hhere.
    destruct (is_redirect response) eqn:Hredirect.
    - destruct (maxRedirects <? S (0 + List.length rs))%nat eqn:Hmax.
      + cbn [fst snd]. rewrite app_nil_r. apply (extends_new_events Hhere).
      + apply Nat.ltb_ge in Hmax. unfold maxRedirects in Hmax.
        destruct Hlast as [Hlast | Hlast]; [congruence | simpl in Hmax; lia].
    - destruct (is_bad_status response).
      + cbn [fst snd]. rewrite app_nil_r. apply (extends_new_events Hhere).
      + cbn [fst snd run].
        assert (Hread : extends w (emit (EvBody response) (requested (follow uri rs) w'))
                          (followed uri rs
                           ++ [request_log (follow uri rs); EvGet (follow uri rs)]
                           ++ [EvBody response])%list).
        { rewrite app_assoc. apply (extends_trans Hhere). apply extends_emit. }
        destruct (answer_body response); cbn [settle run fst snd];
          apply (extends_new_events Hread). }
  split; [exact Htrace |].
  rewrite Htrace, !destroyed_app, !bodies_app.
  destruct (destroyed_followed rs uri) as [-> ->].
  destruct (is_redirect response); [split; [apply app_nil_r | reflexivity] |].
  destruct (is_bad_status response); split; try apply app_nil_r; reflexivity.
Qed.

End Streams.

(** A redirect, then a 404. *)
Lemma rejected_response_is_left_open_witness :
  new_events (world_of [Responded (found "https://b.example"); Responded not_found])
    (snd (run (request (platform := Concrete.platform) "https://a.example")
            (world_of [Responded (found "https://b.example"); Responded not_found])))
  = [request_log "https://a.example"; EvGet "https://a.example";
     EvDestroy (found "https://b.example");
     request_log "https://b.example"; EvGet "https://b.example"].
Proof.
  assert (Hchain : Forall (fun r => is_redirect r = true) [found "https://b.example"])
    by (repeat constructor).
  assert (Hlength : (List.length [found "https://b.example"] <= 10)%nat)
    by (simpl; lia).
  exact (proj1 (@rejected_response_is_left_open Concrete.platform "https://a.example"
                  [found "https://b.example"] not_found []
                  (world_of [Responded (found "https://b.example"); Responded not_found])
                  Hchain Hlength eq_refl (or_introl eq_refl))).
Defined.

(** ** The clock *)

Lemma clock_free_bind {A B : Type} (p : Prog A) (f : A -> Prog B) :
  clock_free p -> (forall a, clock_free (f a)) -> clock_free (bind p f).
Proof.
  intros Hp Hf. induction Hp; simpl; auto; constructor; auto.
Qed.

Lemma clock_free_try_catch {A : Type} (p : Prog A) (handler : Thrown -> Prog A) :
  clock_free p -> (forall e, clock_free (handler e)) -> clock_free (try_catch p handler).
Proof.
  intros Hp Hh. induction Hp; simpl; auto; constructor; auto.
Qed.

Lemma clock_free_settle {A : Type} (r : Result A) : clock_free (settle r).
Proof. destruct r; constructor. Qed.

Lemma answer_read_later (ms : Z) (w : World) :
  answer_read (later ms w) = (fst (answer_read w), later ms (snd (answer_read w))).
Proof.
  unfold answer_read, next_fault, later. cbn.
  destruct (faults w) as [| [e |] rest] eqn:Hf; cbn; rewrite ?Hf; reflexivity.
Qed.

Lemma answer_write_later (s : Settings) (ms : Z) (w : World) :
  answer_write s (later ms w)
  = (fst (answer_write s w), later ms (snd (answer_write s w))).
Proof.
  unfold answer_write, next_fault, later. cbn.
  destruct (faults w) as [| [e |] rest] eqn:Hf; cbn; rewrite ?Hf; reflexivity.
Qed.

Lemma answer_get_later (ms : Z) (w : World) :
  answer_get (later ms w) = (fst (answer_get w), later ms (snd (answer_get w))).
Proof.
  unfold answer_get, later. cbn.
  destruct (network w) as [| o rest] eqn:Hn; cbn; rewrite ?Hn; reflexivity.
Qed.

Lemma advance_later {A : Type} (p : Prog A) (Hp : clock_free p) (ms : Z) :
  forall w,
    Loop.advance p (later ms w)
    = (fst (Loop.advance p w), later ms (snd (Loop.advance p w))).
Proof.
  induction Hp; intro w; cbn [Loop.advance]; try reflexivity.
  - apply (IHHp (emit (EvLog lvl msg fields) w)).
  - apply (IHHp (emit (EvDestroy response) w)).
Qed.

Lemma advance_clock_free {A : Type} (p : Prog A) (Hp : clock_free p) :
  forall w, clock_free (fst (Loop.advance p w)).
Proof.
  induction Hp; intro w; cbn [Loop.advance fst]; auto; constructor; auto.
Qed.

Lemma resume_later {A : Type} (p : Prog A) (Hp : clock_free p) (ms : Z) (w : World) :
  Loop.resume p (later ms w)
  = (fst (Loop.resume p w), later ms (snd (Loop.resume p w))).
Proof.
  destruct Hp; cbn [Loop.resume]; try reflexivity.
  - rewrite answer_read_later. destruct (answer_read w) as [r w']. cbn [fst snd].
    apply advance_later. auto.
  - rewrite answer_write_later. destruct (answer_write s w) as [r w']. cbn [fst snd].
    apply advance_later. auto.
  - rewrite answer_get_later. destruct (answer_get w) as [o w']. cbn [fst snd].
    apply advance_later. auto.
  - apply advance_later. auto.
Qed.

Lemma resume_clock_free {A : Type} (p : Prog A) (Hp : clock_free p) (w : World) :
  clock_free (fst (Loop.resume p w)).
Proof.
  destruct Hp; cbn [Loop.resume fst]; try (constructor; auto; fail).
  - destruct (answer_read w) as [r w']. apply advance_clock_free. auto.
  - destruct (answer_write s w) as [r w']. apply advance_clock_free. auto.
  - destruct (answer_get w) as [o w']. apply advance_clock_free. auto.
  - apply advance_clock_free. auto.
Qed.

Lemma lookup_set_state_cases (p q : Loop.PromiseId) (st st' : Loop.PromiseState)
  (table : list (Loop.PromiseId * Loop.PromiseState)) :
  Loop.lookup q (Loop.set_state p st table) = Some st' ->
  st' = st \/ Loop.lookup q table = Some st'.
Proof.
  induction table as [| [r old] rest IH]; cbn; [auto |].
  destruct (Nat.eqb r p) eqn:Hrp; cbn.
  - destruct (Nat.eqb r q); [intros [= <-]; auto | auto].
  - destruct (Nat.eqb r q); auto.
Qed.

Section Clock.
Context {platform : Platform}.
Variable this : UpdateHttpProvider.

Lemma request_clock_free (budget redirects : nat) (uri : string) :
  clock_free (requestResponse_request budget redirects uri).
Proof.
  revert redirects uri.
  induction budget as [| budget IH]; intros redirects uri; simpl;
    constructor; constructor; intros [response | e]; try constructor;
    destruct (is_redirect response); try (destruct (is_bad_status response); constructor);
    destruct (maxRedirects <? S redirects)%nat; constructor; auto; constructor.
Qed.

Lemma try_clock_free (force : bool) (now : Z) : clock_free (_getUpdate_try this force now).
Proof.
  assert (Hfetch : clock_free (fetch_update this now)).
  { unfold fetch_update, request, requestResponse.
    apply clock_free_bind.
    - apply clock_free_bind; [apply request_clock_free |].
      intro response. constructor. intro r. apply clock_free_settle.
    - intro buffer. apply clock_free_bind; [apply clock_free_settle |].
      intro data. apply clock_free_bind; [apply clock_free_settle |].
      intro name. cbv zeta. apply clock_free_bind.
      + constructor. intro r. apply clock_free_settle.
      + intros _. constructor. }
  unfold _getUpdate_try. apply clock_free_bind.
  - destruct force; cbn [negb]; [constructor |].
    constructor. intro r. apply clock_free_settle.
  - intro settings. apply clock_free_bind.
    + destruct (update settings) as [record |]; [| exact Hfetch].
      destruct (checked record + updateInterval <? now); [exact Hfetch | constructor].
    + intro u. apply clock_free_bind; [repeat constructor |]. intros _. constructor.
Qed.

Lemma started_clock_free (force : bool) (w : World) :
  clock_free (fst (Loop.advance (_getUpdate this force) w)).
Proof.
  unfold _getUpdate, date_now. cbn [bind Loop.advance].
  apply advance_clock_free. apply clock_free_try_catch; [apply try_clock_free |].
  intros [| c m]; unfold _getUpdate_catch, logger_error; cbn [bind]; repeat constructor.
Qed.

Lemma clock_is_read_once_step (a : Loop.Action) (s : Loop.Process) :
  clock_is_read_once s -> clock_is_read_once (Loop.step this a s).
Proof.
  intro Hinv. destruct a as [force | q | ms]; cbn [Loop.step].
  - unfold Loop.getUpdate.
    destruct (negb (enabled this)); [exact Hinv |].
    destruct (Loop.this_update s); [exact Hinv |].
    pose proof (started_clock_free force (Loop.world s)) as Hfree.
    destruct (Loop.advance (_getUpdate this force) (Loop.world s)) as [check w].
    cbn [snd fst] in *. intros p c. cbn [Loop.promises Loop.lookup].
    destruct (Nat.eqb (Loop.next_promise s) p); [intros [= <-]; exact Hfree | apply Hinv].
  - unfold Loop.deliver.
    destruct (Loop.lookup q (Loop.promises s)) as [[check | r] |] eqn:Hq; try exact Hinv.
    pose proof (resume_clock_free (Hinv q check Hq) (Loop.world s)) as Hfree.
    destruct (Loop.resume check (Loop.world s)) as [check' w]. cbn [fst] in Hfree.
    assert (Hset : forall st,
              (forall c, st = Loop.Pending c -> clock_free c) ->
              forall p c,
                Loop.lookup p (Loop.set_state q st (Loop.promises s)) = Some (Loop.Pending c) ->
                clock_free c).
    { intros st Hst p c Hp. apply lookup_set_state_cases in Hp.
      destruct Hp as [Hp | Hp]; [apply Hst; auto | apply (Hinv p c Hp)]. }
    destruct check'; intros p c; cbn [Loop.promises]; apply Hset;
      try discriminate; intros c0 [= <-]; exact Hfree.
  - exact Hinv.
Qed.

Lemma clock_is_read_once_exec (schedule : list Loop.Action) :
  forall s, clock_is_read_once s -> clock_is_read_once (Loop.exec this schedule s).
Proof.
  induction schedule as [| a schedule IH]; intros s Hs; cbn; auto.
  apply IH. apply clock_is_read_once_step. exact Hs.
Qed.

(** X8.  A check reads the clock once, when it starts.  Time that passes
    while it is in flight changes nothing of what it does: a turn of the
    event loop after [ms] milliseconds leaves the process a turn leaves,
    [ms] milliseconds later.  In particular the age of the stored record
    is judged, and the new record dated, by the time of the call. *)
Theorem check_reads_clock_once (w : World) (schedule : list Loop.Action)
  (p : Loop.PromiseId) (ms : Z) :
  let s := Loop.exec this schedule (Loop.init w) in
  Loop.deliver p (Loop.elapse ms s) = Loop.elapse ms (Loop.deliver p s).
Proof.
  cbv zeta.
  assert (Hinv : clock_is_read_once (Loop.exec this schedule (Loop.init w))).
  { apply clock_is_read_once_exec. intros q c. cbn. discriminate. }
  set (s := Loop.exec this schedule (Loop.init w)) in *. clearbody s.
  unfold Loop.deliver. cbn [Loop.elapse Loop.promises Loop.world].
  destruct (Loop.lookup p (Loop.promises s)) as [[check | r] |] eqn:Hp; try reflexivity.
  pose proof (resume_later (Hinv p check Hp) ms (Loop.world s)) as Hlater.
  unfold later in Hlater at 1. rewrite Hlater.
  destruct (Loop.resume check (Loop.world s)) as [check' w']. cbn [fst snd].
  destruct check'; reflexivity.
Qed.

End Clock.

(** ** A disabled provider *)

Section Inert.
Context {platform : Platform}.
Variable this : UpdateHttpProvider.

Lemma disabled_step (a : Loop.Action) (s : Loop.Process) :
  enabled this = false -> Loop.promises s = [] ->
  Loop.promises (Loop.step this a s) = []
  /\ Loop.this_update (Loop.step this a s) = Loop.this_update s
  /\ trace (Loop.world (Loop.step this a s)) = trace (Loop.world s)
  /\ store (Loop.world (Loop.step this a s)) = store (Loop.world s)
  /\ network (Loop.world (Loop.step this a s)) = network (Loop.world s)
  /\ faults (Loop.world (Loop.step this a s)) = faults (Loop.world s).
Proof.
  intros Hoff Hnone. destruct a as [force | p | ms]; cbn [Loop.step].
  - unfold Loop.getUpdate. rewrite Hoff. cbn. auto 10.
  - unfold Loop.deliver. rewrite Hnone. cbn. auto 10.
  - cbn. auto 10.
Qed.

(** X9.  A provider whose updates are disabled does nothing, whatever is
    asked of it and in whatever order: it never starts a check, makes no
    request, reads and writes no settings, and logs nothing. *)
Theorem disabled_provider_is_inert (w : World) (schedule : list Loop.Action)
  (Hdisabled : enabled this = false) :
  let s := Loop.exec this schedule (Loop.init w) in
  Loop.promises s = [] /\ Loop.this_update s = None
  /\ trace (Loop.world s) = trace w /\ store (Loop.world s) = store w
  /\ network (Loop.world s) = network w /\ faults (Loop.world s) = faults w.
Proof.
  cbv zeta.
  assert (Hgen : forall s,
    Loop.promises s = [] ->
    Loop.promises (Loop.exec this schedule s) = []
    /\ Loop.this_update (Loop.exec this schedule s) = Loop.this_update s
    /\ trace (Loop.world (Loop.exec this schedule s)) = trace (Loop.world s)
    /\ store (Loop.world (Loop.exec this schedule s)) = store (Loop.world s)
    /\ network (Loop.world (Loop.exec this schedule s)) = network (Loop.world s)
    /\ faults (Loop.world (Loop.exec this schedule s)) = faults (Loop.world s)).
  { induction schedule as [| a schedule IH]; intros s Hs; [cbn; auto 10 |].
    destruct (disabled_step a s Hdisabled Hs) as (Hp & Hm & Ht & Hst & Hn & Hf).
    destruct (IH (Loop.step this a s) Hp) as (Hp' & Hm' & Ht' & Hst' & Hn' & Hf').
    cbn [Loop.exec fold_left]. fold (Loop.exec this schedule (Loop.step this a s)).
    repeat split; congruence. }
  apply (Hgen (Loop.init w)). reflexivity.
Qed.

End Inert.

Lemma disabled_provider_is_inert_witness :
  trace (Loop.world
           (Loop.exec (platform := Concrete.platform) disabled_provider
              [Loop.Call true; Loop.Io 0%nat; Loop.Elapse 5; Loop.Call false]
              (Loop.init release_world)))
  = [].
Proof.
  exact (proj1 (proj2 (proj2
           (@disabled_provider_is_inert Concrete.platform disabled_provider release_world
              [Loop.Call true; Loop.Io 0%nat; Loop.Elapse 5; Loop.Call false] eq_refl)))).
Defined.

(** ** The status surface *)

Section SurfaceFacts.
Context {platform : Platform}.
Variable this : UpdateHttpProvider.
Variable base : HttpProvider.

Lemma run_isLatestVersion_world (latest : Update) (w : World) :
  run (isLatestVersion this latest) w
  = (Ok (verdict this latest), emit (comparing_log this latest) w).
Proof.
  unfold isLatestVersion, logger_debug, verdict, comparing_log. simpl.
  destruct (strict_equal (version latest) (currentVersion this)); [reflexivity |].
  destruct (semver_lt (version latest) (currentVersion this)); reflexivity.
Qed.

Lemma run_task_compare {A : Type} (latest : Update) (k : bool -> Task A) (s : Loop.Process) :
  run_task this (CallIsLatestVersion latest k) s
  = run_task this (k (verdict this latest)) (compared this latest s).
Proof.
  cbn [run_task]. rewrite run_isLatestVersion_world. reflexivity.
Qed.

(** Awaiting [getUpdate] when no check is in flight: one check runs to
    its end; its rejection is thrown at the await. *)
Lemma run_task_await_started {A : Type} (force : bool) (k : Update -> Task A)
  (s : Loop.Process) :
  enabled this = true -> Loop.this_update s = None ->
  run_task this (AwaitGetUpdate force k) s
  = match fst (run (_getUpdate this force) (Loop.world s)) with
    | Ok u => run_task this (k u) (checked_process this force s)
    | Err e => Some (Err e, checked_process this force s)
    end.
Proof.
  intros Hon Hidle. cbn [run_task].
  pose proof (@await_started platform this Hon force s Hidle) as Hawait.
  rewrite (@getUpdate_starts platform this Hon force s Hidle) in *.
  cbn [snd] in Hawait. rewrite Hawait.
  destruct (fst (run (_getUpdate this force) (Loop.world s))); reflexivity.
Qed.


(** X10.  The JSON status of an enabled provider, when no check is in
    flight, runs one unforced check.  When the check returns a record,
    the answer is that record with the comparator's verdict on it, and
    [this.update] is clear again.  When the check is rejected, which
    happens when its [try] block fails with [null] or [undefined], the
    query is rejected with the same [TypeError], and [this.update] keeps
    naming the rejected promise.  In both cases no check is left in
    flight. *)
Theorem status_json_reports_check (errorOrUpdate : option (Update + JsError))
  (s : Loop.Process)
  (Henabled : enabled this = true) (Hidle : Loop.this_update s = None) :
  let check := fst (run (_getUpdate this false) (Loop.world s)) in
  let after := checked_process this false s in
  run_task this (getRoot this base true errorOrUpdate) s
  = match check with
    | Ok u =>
        Some (Ok (mkHttpResponse (JsonStatus (Some u) (verdict this u))),
              compared this u after)
    | Err e => Some (Err e, after)
    end
  /\ match check with
     | Ok _ => Loop.this_update after = None
     | Err e =>
         Loop.this_update after = Some (Loop.next_promise s)
         /\ e = catch_type_error
         /\ fst (run (_getUpdate_try this false (clock (Loop.world s))) (Loop.world s))
            = Err ThrownNullish
     end
  /\ Loop.in_flight (Loop.promises after) = Loop.in_flight (Loop.promises s).
Proof.
  cbv zeta. split; [| split].
  - unfold getRoot. rewrite Henabled. cbn [negb].
    rewrite (run_task_await_started false _ s Henabled Hidle).
    destruct (fst (run (_getUpdate this false) (Loop.world s))) as [u | e];
      [| reflexivity].
    rewrite run_task_compare. reflexivity.
  - pose proof (getUpdate_outcome this false (Loop.world s)) as Hout.
    unfold checked_process. cbn [Loop.this_update].
    destruct (fst (run (_getUpdate this false) (Loop.world s))) as [u | e];
      [reflexivity |].
    split; [reflexivity |].
    destruct (fst (run (_getUpdate_try this false (clock (Loop.world s))) (Loop.world s)))
      as [u | [| c m]]; try discriminate.
    injection Hout as ->. split; reflexivity.
  - reflexivity.
Qed.


End SurfaceFacts.


(** The release 1.3.0, on a provider that runs 1.2.0. *)
Lemma status_json_reports_check_witness :
  option_map fst
    (run_task (platform := Concrete.platform) a_provider
       (getRoot (platform := Concrete.platform) a_provider a_base true None)
       (Loop.init release_world))
  = Some (Ok (mkHttpResponse (JsonStatus (Some (mkUpdate 1000 (JsString "1.3.0"))) false))).
Proof.
  rewrite (proj1 (@status_json_reports_check Concrete.platform a_provider a_base None
                    (Loop.init release_world) eq_refl eq_refl)).
  reflexivity.
Defined.

(** The same query when the settings provider rejects the read with
    [undefined]: it is rejected, and [this.update] stays set. *)
Example status_json_rejected :
  let answer :=
    run_task (platform := Concrete.platform) a_provider
      (getRoot (platform := Concrete.platform) a_provider a_base true None)
      (Loop.init rejecting_store_world) in
  option_map fst answer = Some (Err catch_type_error)
  /\ option_map (fun r => Loop.this_update (snd r)) answer = Some (Some 0%nat).
Proof. split; reflexivity. Qed.

(** ** Request handling *)


Section HandlerFacts.
Context {platform : Platform}.
Variable this : UpdateHttpProvider.
Variable guards : Http.Guards.
Variable provider : Http.Route -> HttpProvider.








(** X13.  A request that is refused, because it is not authenticated, because
    of its method, or because its route is not [/] or [/check] at the
    root, is rejected and leaves the provider as it was: it starts no
    check. *)
Theorem refused_request_does_nothing (route : Http.Route) (request : Http.Request)
  (s : Loop.Process)
  (Hrefused : Http.ensureAuthenticated guards request <> None
              \/ Http.ensureMethod guards request <> None
              \/ Http.isRoot guards route = false
              \/ (Http.base route <> "/check" /\ Http.base route <> "/")) :
  exists failure,
    handleRequest this guards provider route request s
    = Some (Http.mkHandled (inl failure) None s).
Proof.
  unfold handleRequest.
  destruct (Http.ensureAuthenticated guards request) as [f |]; [eauto |].
  destruct (Http.ensureMethod guards request) as [f |]; [eauto |].
  destruct (Http.isRoot guards route); cbn [negb]; [| eauto].
  destruct Hrefused as [H | [H | [H | [Hcheck Hroot]]]]; try congruence.
  apply String.eqb_neq in Hcheck, Hroot. rewrite Hcheck, Hroot. eauto.
Qed.

End HandlerFacts.

Section CheckRoute.
Context {platform : Platform}.
Variable this : UpdateHttpProvider.
Variable guards : Http.Guards.
Variable provider : Http.Route -> HttpProvider.

Lemma handleRequest_check (route : Http.Route) (request : Http.Request) (s : Loop.Process) :
  admitted_check guards route request ->
  handleRequest this guards provider route request s =
  let (forced, s1) := Loop.getUpdate this true s in
  match redirect_target route with
  | Some target =>
      Some (Http.mkHandled (inr (Http.Redirect target [("to", JsUndefined)]))
              (Some forced) s1)
  | None => answer_root this provider route request (Some forced) s1
  end.
Proof.
  intros (Hauth & Hmethod & Hroot & Hbase). unfold handleRequest.
  rewrite Hauth, Hmethod, Hroot, Hbase. reflexivity.
Qed.

(** A forced check starts with the request: it reads no settings. *)
Lemma advance_forced (w : World) :
  exists k,
    Loop.advance (_getUpdate this true) w
    = (HttpGet (latestUrl this) k,
       emit (EvGet (latestUrl this)) (emit (request_log (latestUrl this)) w)).
Proof.
  unfold _getUpdate, date_now, _getUpdate_try, fetch_update, request, requestResponse.
  cbn [negb bind try_catch Loop.advance update maxRedirects requestResponse_request].
  eexists. reflexivity.
Qed.

(** What a forced check settles with: a record dated now, or the
    [TypeError] of the [catch] block when the [try] block failed with
    [null] or [undefined]. *)
Lemma forced_record_is_new (w : World) :
  match fst (run (_getUpdate this true) w) with
  | Ok u => checked u = clock w
  | Err e =>
      e = catch_type_error
      /\ fst (run (_getUpdate_try this true (clock w)) w) = Err ThrownNullish
  end.
Proof.
  rewrite getUpdate_outcome, forced_try.
  destruct (run_fetch_update this (clock w) w) as (t & more & _ & _ & _ & Hres).
  destruct (run (fetch_update this (clock w)) w) as [[u0 | [| c m]] w1]; cbn in *.
  - apply Hres.
  - split; reflexivity.
  - reflexivity.
Qed.

(** X14.  [/check] with a redirect target answers at once.  The forced check
    it starts is still in flight when the redirect is sent: its request
    has been issued and nothing else has happened, nothing awaits its
    promise, and it completes later as any forced check does, with a
    record dated at the request, or, when its [try] block fails with
    [null] or [undefined], with the [TypeError] of the [catch] block. *)
Theorem check_redirect_does_not_wait (route : Http.Route) (request : Http.Request)
  (s : Loop.Process) (target : option string)
  (Henabled : enabled this = true)
  (Hadmitted : admitted_check guards route request)
  (Htarget : redirect_target route = Some target)
  (Hidle : Loop.this_update s = None) :
  exists h,
    handleRequest this guards provider route request s = Some h
    /\ Http.reply h = inr (Http.Redirect target [("to", JsUndefined)])
    /\ Http.floating h = Some (Ok (Loop.next_promise s))
    /\ Loop.this_update (Http.process h) = Some (Loop.next_promise s)
    /\ Loop.in_flight (Loop.promises (Http.process h))
       = Loop.next_promise s :: Loop.in_flight (Loop.promises s)
    /\ new_events (Loop.world s) (Loop.world (Http.process h))
       = [request_log (latestUrl this); EvGet (latestUrl this)]
    /\ store (Loop.world (Http.process h)) = store (Loop.world s)
    /\ Loop.await (Loop.next_promise s) (Http.process h)
       = Some (fst (run (_getUpdate this true) (Loop.world s)),
               checked_process this true s)
    /\ match fst (run (_getUpdate this true) (Loop.world s)) with
       | Ok u => checked u = clock (Loop.world s)
       | Err e =>
           e = catch_type_error
           /\ fst (run (_getUpdate_try this true (clock (Loop.world s))) (Loop.world s))
              = Err ThrownNullish
       end.
Proof.
  rewrite (handleRequest_check s Hadmitted).
  pose proof (@await_started platform this Henabled true s Hidle) as Hawait.
  rewrite (@getUpdate_starts platform this Henabled true s Hidle) in *.
  rewrite Htarget. cbn [snd] in Hawait.
  eexists. split; [reflexivity |].
  cbn [Http.reply Http.floating Http.process Loop.this_update Loop.promises Loop.world
       Loop.in_flight].
  split; [reflexivity |]. split; [reflexivity |]. split; [reflexivity |].
  destruct (advance_forced (Loop.world s)) as [k Hk].
  rewrite Hk in *. cbn [fst snd] in *.
  split; [reflexivity |].
  split.
  { apply extends_new_events.
    apply (extends_trans (w2 := emit (request_log (latestUrl this)) (Loop.world s))
             (t1 := [request_log (latestUrl this)])
             (t2 := [EvGet (latestUrl this)])); apply extends_emit. }
  split; [reflexivity |]. split; [exact Hawait |].
  apply forced_record_is_new.
Qed.

(** X15.  [/check] as a JSON query, when no check is in flight: the answer is
    the record of the forced check the request starts, which is dated
    now, with the comparator's verdict on it.  One check runs, not two:
    the status query joins the forced check.  When that check is
    rejected, its [try] block having failed with [null] or [undefined],
    the request is rejected with the [TypeError] of the [catch] block. *)
Theorem check_json_reports_forced_check (route : Http.Route) (request : Http.Request)
  (s : Loop.Process)
  (Henabled : enabled this = true)
  (Hadmitted : admitted_check guards route request)
  (Htarget : redirect_target route = None)
  (Hjson : is_json request = true)
  (Hidle : Loop.this_update s = None) :
  handleRequest this guards provider route request s
  = Some match fst (run (_getUpdate this true) (Loop.world s)) with
         | Ok u =>
             Http.mkHandled
               (inr (Http.Respond
                       (mkHttpResponse (JsonStatus (Some u) (verdict this u)))))
               (Some (Ok (Loop.next_promise s)))
               (compared this u (checked_process this true s))
         | Err e =>
             Http.mkHandled (inl (Http.Error e)) (Some (Ok (Loop.next_promise s)))
               (checked_process this true s)
         end
  /\ match fst (run (_getUpdate this true) (Loop.world s)) with
     | Ok u => checked u = clock (Loop.world s)
     | Err e =>
         e = catch_type_error
         /\ fst (run (_getUpdate_try this true (clock (Loop.world s))) (Loop.world s))
            = Err ThrownNullish
     end.
Proof.
  split; [| apply forced_record_is_new].
  rewrite (handleRequest_check s Hadmitted).
  pose proof (@await_started platform this Henabled true s Hidle) as Hawait.
  rewrite (@getUpdate_starts platform this Henabled true s Hidle) in *.
  rewrite Htarget. cbn [snd] in Hawait.
  unfold answer_root, getRoot. rewrite Hjson, Henabled. cbn [negb run_task].
  rewrite (@getUpdate_joins platform this Henabled false (Loop.next_promise s));
    [| reflexivity].
  rewrite Hawait.
  destruct (fst (run (_getUpdate this true) (Loop.world s))) as [u | e]; [| reflexivity].
  rewrite run_isLatestVersion_world. cbn [run_task]. reflexivity.
Qed.

(** X16.  [/check] while [this.update] is set forces nothing: no check is
    started, and the answer is the outcome of the promise that
    [this.update] names: the record of the check in flight, which for an
    unforced check may be the stored record, or the rejection of that
    check. *)
Theorem check_joins_check_in_flight (route : Http.Route) (request : Http.Request)
  (s : Loop.Process) (p : Loop.PromiseId)
  (Henabled : enabled this = true)
  (Hinv : single_flight s)
  (Hadmitted : admitted_check guards route request)
  (Htarget : redirect_target route = None)
  (Hjson : is_json request = true)
  (Hbusy : Loop.this_update s = Some p) :
  exists r s',
    Loop.await p s = Some (r, s')
    /\ Loop.next_promise s' = Loop.next_promise s
    /\ map fst (Loop.promises s') = map fst (Loop.promises s)
    /\ handleRequest this guards provider route request s
       = Some match r with
              | Ok u =>
                  Http.mkHandled
                    (inr (Http.Respond
                            (mkHttpResponse (JsonStatus (Some u) (verdict this u)))))
                    (Some (Ok p)) (compared this u s')
              | Err e => Http.mkHandled (inl (Http.Error e)) (Some (Ok p)) s'
              end.
Proof.
  assert (Hawait : exists r s',
            Loop.await p s = Some (r, s')
            /\ Loop.next_promise s' = Loop.next_promise s
            /\ map fst (Loop.promises s') = map fst (Loop.promises s)).
  { pose proof Hinv as Hcase. unfold single_flight in Hcase. rewrite Hbusy in Hcase.
    unfold Loop.await.
    destruct Hcase as [(_ & check & -> & _) | (_ & e & ->)].
    - destruct (Loop.finish check (Loop.world s)) as [r w'].
      eexists. eexists. split; [reflexivity |]. split; [reflexivity |].
      cbn [Loop.promises]. clear.
      induction (Loop.promises s) as [| [q st] rest IH]; cbn; auto.
      destruct (Nat.eqb q p); cbn; congruence.
    - eexists. eexists. split; [reflexivity |]. split; reflexivity. }
  destruct Hawait as (r & s' & Hawait & Hnext & Hids).
  exists r, s'. split; [exact Hawait |]. split; [exact Hnext |]. split; [exact Hids |].
  rewrite (handleRequest_check s Hadmitted).
  rewrite (@getUpdate_joins platform this Henabled true p s Hbusy), Htarget.
  unfold answer_root, getRoot. rewrite Hjson, Henabled. cbn [negb run_task].
  rewrite (@getUpdate_joins platform this Henabled false p s Hbusy), Hawait.
  destruct r as [u | e]; [| reflexivity].
  rewrite run_isLatestVersion_world. cbn [run_task]. reflexivity.
Qed.

(** X17.  [/check] on a provider whose updates are disabled: the forced check
    is rejected, but nothing awaits it, so the rejection goes unobserved
    and the request is answered as a status query is; the provider is
    left as it was. *)
Theorem check_when_disabled (route : Http.Route) (request : Http.Request)
  (s : Loop.Process)
  (Hdisabled : enabled this = false)
  (Hadmitted : admitted_check guards route request) :
  exists h,
    handleRequest this guards provider route request s = Some h
    /\ Http.floating h = Some (Err (newError "updates are not enabled"))
    /\ Http.process h = s
    /\ (forall target, redirect_target route = Some target ->
          Http.reply h = inr (Http.Redirect target [("to", JsUndefined)]))
    /\ (redirect_target route = None -> is_json request = true ->
          Http.reply h = inr (Http.Respond (mkHttpResponse (JsonStatus None true)))).
Proof.
  rewrite (handleRequest_check s Hadmitted).
  unfold Loop.getUpdate. rewrite Hdisabled. cbn [negb].
  destruct (redirect_target route) as [target |].
  - eexists. split; [reflexivity |]. cbn.
    repeat split; auto; try discriminate. intros t [= <-]. reflexivity.
  - unfold answer_root, getRoot, getUpdateHtml. rewrite Hdisabled. cbn [negb].
    destruct (is_json request).
    + cbn [run_task]. eexists. split; [reflexivity |]. cbn.
      repeat split; auto; discriminate.
    + destruct (getUtf8Resource (provider route) (rootPath (provider route))
                  "src/browser/pages/update.html") as [page | e];
        cbn [tbind run_task]; eexists; (split; [reflexivity |]); cbn;
        repeat split; auto; discriminate.
Qed.

End CheckRoute.


Lemma refused_request_does_nothing_witness :
  exists failure,
    handleRequest (platform := Concrete.platform) a_provider closed_guards (fun _ => a_base)
      (check_route Http.Absent) json_request (Loop.init release_world)
    = Some (Http.mkHandled (inl failure) None (Loop.init release_world)).
Proof.
  apply (@refused_request_does_nothing Concrete.platform a_provider closed_guards
           (fun _ => a_base)).
  left. discriminate.
Defined.

Lemma check_redirect_does_not_wait_witness :
  option_map Http.reply
    (handleRequest (platform := Concrete.platform) a_provider open_guards (fun _ => a_base)
       (check_route (Http.Many ["/next"; "/other"])) json_request (Loop.init release_world))
  = Some (inr (Http.Redirect (Some "/next") [("to", JsUndefined)])).
Proof.
  destruct (@check_redirect_does_not_wait Concrete.platform a_provider open_guards
              (fun _ => a_base) (check_route (Http.Many ["/next"; "/other"])) json_request
              (Loop.init release_world) (Some "/next") eq_refl
              (conj eq_refl (conj eq_refl (conj eq_refl eq_refl))) eq_refl eq_refl)
    as (h & Hh & Hreply & _).
  rewrite Hh. cbn [option_map]. rewrite Hreply. reflexivity.
Defined.

Lemma check_json_reports_forced_check_witness :
  option_map Http.reply
    (handleRequest (platform := Concrete.platform) a_provider open_guards (fun _ => a_base)
       (check_route Http.Absent) json_request (Loop.init (aged_world 1000)))
  = Some (inr (Http.Respond
                 (mkHttpResponse
                    (JsonStatus (Some (mkUpdate 1000 (JsString "1.3.0"))) false)))).
Proof.
  rewrite (proj1 (@check_json_reports_forced_check Concrete.platform a_provider open_guards
                    (fun _ => a_base) (check_route Http.Absent) json_request
                    (Loop.init (aged_world 1000)) eq_refl
                    (conj eq_refl (conj eq_refl (conj eq_refl eq_refl)))
                    eq_refl eq_refl eq_refl)).
  reflexivity.
Defined.

Lemma check_joins_check_in_flight_witness :
  option_map Http.reply
    (handleRequest (platform := Concrete.platform) a_provider open_guards (fun _ => a_base)
       (check_route Http.Absent) json_request checking)
  = Some (inr (Http.Respond (mkHttpResponse (JsonStatus (Some stored_record) true)))).
Proof.
  destruct (@check_joins_check_in_flight Concrete.platform a_provider open_guards
              (fun _ => a_base) (check_route Http.Absent) json_request checking 0%nat
              eq_refl
              (@single_flight_getUpdate Concrete.platform a_provider false
                 (Loop.init (aged_world 1000)) (single_flight_init (aged_world 1000)))
              (conj eq_refl (conj eq_refl (conj eq_refl eq_refl))) eq_refl eq_refl eq_refl)
    as (r & s' & Hawait & _ & _ & Hh).
  rewrite Hh. cbn [option_map].
  assert (Hrec : r = Ok stored_record).
  { vm_compute in Hawait. injection Hawait as <- _. reflexivity. }
  rewrite Hrec. reflexivity.
Defined.

Lemma check_when_disabled_witness :
  exists h,
    handleRequest (platform := Concrete.platform) disabled_provider open_guards
      (fun _ => a_base) (check_route Http.Absent) json_request (Loop.init release_world)
    = Some h
    /\ Http.floating h = Some (Err (newError "updates are not enabled"))
    /\ Http.process h = Loop.init release_world.
Proof.
  destruct (@check_when_disabled Concrete.platform disabled_provider open_guards
              (fun _ => a_base) (check_route Http.Absent) json_request
              (Loop.init release_world) eq_refl
              (conj eq_refl (conj eq_refl (conj eq_refl eq_refl))))
    as (h & Hh & Hf & Hp & _).
  exists h. split; [exact Hh |]. split; [exact Hf | exact Hp].
Defined.

(** ** The plugins activated *)

Lemma activated_app (e1 e2 : list Plugin.Effect) :
  activated (e1 ++ e2) = (activated e1 ++ activated e2)%list.
Proof.
  induction e1 as [| e e1 IH]; simpl; auto. destruct e; simpl; rewrite ?IH; auto.
Qed.

Lemma activated_catch (error : Thrown) :
  activated (snd (Plugin.loadPlugin_catch error)) = [].
Proof.
  destruct error as [| c msg]; simpl; [reflexivity |].
  destruct (negb (Plugin.str_eq c "MODULE_NOT_FOUND")); reflexivity.
Qed.

Lemma activated_entry (env : Plugin.Env) (file : Plugin.Dirent) :
  activated (snd (Plugin.load_entry env file))
  = if is_plugin env file
    then [Plugin.path_join env (Plugin.pluginDir env) (Plugin.name file)]
    else [].
Proof.
  unfold Plugin.load_entry, is_plugin, Plugin.loadPlugin.
  destruct (Plugin.isDirectory file); cbn [negb andb]; [| reflexivity].
  destruct (Plugin.require env _) as [error | [[error |] |]];
    try apply activated_catch; reflexivity.
Qed.

(** X18.  The plugins activated are the entries of the plugins directory that
    are directories whose module loads and whose [activate] returns, each
    one once, in the order of the directory listing, whatever the other
    entries do.  An entry that is not a directory is not loaded. *)
Theorem activated_plugins (env : Plugin.Env) (files : list Plugin.Dirent)
  (Hscan : Plugin.readdir env = inr files) :
  activated (snd (Plugin.loadPlugins env))
  = map (fun file => Plugin.path_join env (Plugin.pluginDir env) (Plugin.name file))
      (filter (is_plugin env) files).
Proof.
  assert (Hall : activated (snd (Plugin._loadPlugins env))
                 = map (fun file => Plugin.path_join env (Plugin.pluginDir env)
                                      (Plugin.name file))
                     (filter (is_plugin env) files)).
  { unfold Plugin._loadPlugins. rewrite Hscan. cbn [snd]. rewrite map_map.
    clear Hscan. induction files as [| file files IH]; [reflexivity |].
    cbn [map List.concat filter]. rewrite activated_app, IH, activated_entry.
    destruct (is_plugin env file); reflexivity. }
  unfold Plugin.loadPlugins.
  destruct (Plugin._loadPlugins env) as [[| [| c msg]] effects]; cbn [snd] in *; auto.
  destruct (negb (Plugin.str_eq c "ENOENT")); cbn [snd]; auto.
  rewrite activated_app, Hall. cbn. apply app_nil_r.
Qed.

Lemma activated_plugins_witness :
  activated (snd (Plugin.loadPlugins plugins_env)) = ["/plugins/good"].
Proof.
  exact (@activated_plugins plugins_env _ eq_refl).
Defined.

(** ** A request that is never answered *)

Section Stall.
Context {platform : Platform}.
Variable this : UpdateHttpProvider.



End Stall.

